(** * vgo-gateway: plugin installer, loader, management endpoint and
    sliding-window rate limiter

  A shallow embedding of
    - internal/plugin/installer.go  (file-name parsing, versioned install),
    - internal/plugin/packager.go and loader.go (archive, supervisor),
    - the plugin management handler (DELETE /remove),
    - internal/middleware/ratelimit.go (both backends),
  with the properties stated about them.

  Conventions.  Go strings are [string] (bytes); Go [int] is a 64-bit
  two's-complement integer, carried as [Z] with the wrap-around of [+]
  written out ([wrap64]); Go maps are [gmap]; calls that leave the
  program (the file system, the network, process creation) take their
  outcome from an explicit environment argument. *)

From Stdlib Require Import String Ascii List ZArith Lia Bool Sorted.
From stdpp Require Import gmap strings list pretty.

Open Scope string_scope.

#[global] Set Warnings "-register-all,-clear-no-such-hyp".

(** ** Outcomes of fallible Go code

  A Go function returning [(T, error)] yields [Ok] or [Err]; a run-time
  panic (an out-of-range slice expression) is the third outcome. *)

Inductive outcome (E A : Type) : Type :=
| Ok (a : A)
| Err (e : E)
| Panic.

Arguments Ok {E A} a.
Arguments Err {E A} e.
Arguments Panic {E A}.

(** ** Helpers of package [strings] *)

Module Strings.

(** [strings.HasSuffix]: [len(s) >= len(suffix) && s[len(s)-len(suffix):] == suffix]. *)
Definition HasSuffix (s suffix : string) : bool :=
  let n := String.length s in
  let k := String.length suffix in
  (k <=? n)%nat && String.eqb (substring (n - k) k s) suffix.

(** [strings.TrimSuffix]. *)
Definition TrimSuffix (s suffix : string) : string :=
  if HasSuffix s suffix
  then substring 0 (String.length s - String.length suffix) s
  else s.

(** [strings.Split(s, sep)] for a one-byte separator: always at least
    one part; [n] separators give [n + 1] parts. *)
Fixpoint Split (s : string) (sep : ascii) : list string :=
  match s with
  | EmptyString => [EmptyString]
  | String c rest =>
      if Ascii.eqb c sep then EmptyString :: Split rest sep
      else match Split rest sep with
           | p :: ps => String c p :: ps
           | [] => [String c EmptyString]
           end
  end.

(** [strings.Join]. *)
Definition Join (parts : list string) (sep : string) : string :=
  String.concat sep parts.

(** No byte of [s] is the separator [sep]. *)
Fixpoint free_of (sep : ascii) (s : string) : bool :=
  match s with
  | EmptyString => true
  | String c rest => negb (Ascii.eqb c sep) && free_of sep rest
  end.

End Strings.

(** ** Regular expressions, as far as the two patterns of the installer
     need them (package [regexp], RE2 syntax)

  Matching is by derivatives.  [regexp.MatchString] looks for a match
  anywhere in the text; both patterns start with [^], which pins the
  start, and the version pattern has no [$], so a match is a matching
  prefix. *)

Module Regexp.

Inductive regex : Type :=
| Never
| Eps
| Class (p : ascii -> bool)
| Seq (r1 r2 : regex)
| Alt (r1 r2 : regex)
| Star (r : regex).

Definition Opt (r : regex) : regex := Alt Eps r.
Definition Plus (r : regex) : regex := Seq r (Star r).
Definition Chr (c : ascii) : regex := Class (Ascii.eqb c).

Definition in_range (lo hi : ascii) (c : ascii) : bool :=
  (nat_of_ascii lo <=? nat_of_ascii c)%nat && (nat_of_ascii c <=? nat_of_ascii hi)%nat.

(** [[0-9]] *)
Definition digit : regex := Class (in_range "0" "9").

Fixpoint nullable (r : regex) : bool :=
  match r with
  | Never => false
  | Eps => true
  | Class _ => false
  | Seq r1 r2 => nullable r1 && nullable r2
  | Alt r1 r2 => nullable r1 || nullable r2
  | Star _ => true
  end.

Fixpoint deriv (c : ascii) (r : regex) : regex :=
  match r with
  | Never => Never
  | Eps => Never
  | Class p => if p c then Eps else Never
  | Seq r1 r2 =>
      if nullable r1
      then Alt (Seq (deriv c r1) r2) (deriv c r2)
      else Seq (deriv c r1) r2
  | Alt r1 r2 => Alt (deriv c r1) (deriv c r2)
  | Star r1 => Seq (deriv c r1) (Star r1)
  end.

(** Some prefix of [s] is in the language of [r]: the pattern [^r]. *)
Fixpoint match_prefix (r : regex) (s : string) : bool :=
  nullable r ||
  match s with
  | EmptyString => false
  | String c rest => match_prefix (deriv c r) rest
  end.

(** All of [s] is in the language of [r]: the pattern [^r$]. *)
Fixpoint match_whole (r : regex) (s : string) : bool :=
  match s with
  | EmptyString => nullable r
  | String c rest => match_whole (deriv c r) rest
  end.

(** The strings of the language of [r]. *)
Inductive matches : regex -> string -> Prop :=
| matches_eps : matches Eps EmptyString
| matches_class p c : p c = true -> matches (Class p) (String c EmptyString)
| matches_seq r1 r2 s1 s2 :
    matches r1 s1 -> matches r2 s2 -> matches (Seq r1 r2) (s1 ++ s2)
| matches_alt_l r1 r2 s : matches r1 s -> matches (Alt r1 r2) s
| matches_alt_r r1 r2 s : matches r2 s -> matches (Alt r1 r2) s
| matches_star_nil r : matches (Star r) EmptyString
| matches_star_cons r s1 s2 :
    matches r s1 -> matches (Star r) s2 -> matches (Star r) (s1 ++ s2).

(** A non-empty string of decimal digits. *)
Fixpoint all_digits (s : string) : bool :=
  match s with
  | EmptyString => true
  | String c rest => in_range "0" "9" c && all_digits rest
  end.

Definition number (s : string) : Prop := s <> EmptyString /\ all_digits s = true.

(** Every byte of [s] is in the class [p]. *)
Fixpoint all_chars (p : ascii -> bool) (s : string) : bool :=
  match s with
  | EmptyString => true
  | String c rest => p c && all_chars p rest
  end.

End Regexp.

(** ** Helpers of package [path/filepath] (slash-separated paths) *)

Module Filepath.

(** [filepath.Base]: trailing slashes are dropped and the last element is
    kept, so the result is the last non-empty element; [""] gives ["."],
    a path of slashes only ["/"]. *)
Definition Base (path : string) : string :=
  if String.eqb path "" then "."
  else
    match filter (fun p => negb (String.eqb p "")) (Strings.Split path "/") with
    | [] => "/"
    | p :: ps => List.last ps p
    end.

Fixpoint has_slash (s : string) : bool :=
  match s with
  | EmptyString => false
  | String c rest => Ascii.eqb c "/" || has_slash rest
  end.

(** [filepath.Ext]: the suffix that starts at the last dot of the last
    element; [""] when that element has no dot. *)
Fixpoint Ext (path : string) : string :=
  match path with
  | EmptyString => EmptyString
  | String c rest =>
      let later := Ext rest in
      if negb (String.eqb later "") then later
      else if Ascii.eqb c "." && negb (has_slash rest) then path
      else EmptyString
  end.

(** [filepath.Join] of two clean, non-empty elements. *)
Definition Join (dir name : string) : string := dir ++ "/" ++ name.

(** [filepath.Dir] of a clean path: all but the last element. *)
Definition Dir (path : string) : string :=
  let d := Strings.Join (removelast (Strings.Split path "/")) "/" in
  if String.eqb d "" then (if has_slash path then "/" else ".") else d.

End Filepath.

(** ** The installer (internal/plugin/installer.go) *)

Module Installer.

Import Regexp.

Record PluginInfo : Type := mkPluginInfo {
  ServiceName : string;
  Platform : string;
  Version : string;
  Filename : string
}.

(** The errors [parsePluginInfo] returns. *)
Inductive parse_error : Type :=
| BadFormat        (* fewer than three parts *)
| NoVersion.       (* no part looks like a version *)

(** [^v?[0-9]+\.[0-9]+\.[0-9]+] *)
Definition version_re : regex :=
  Seq (Opt (Chr "v"))
    (Seq (Plus digit)
       (Seq (Chr ".")
          (Seq (Plus digit)
             (Seq (Chr ".") (Plus digit))))).

Definition is_version (part : string) : bool := match_prefix version_re part.

(** The loop [for i := len(parts) - 1; i >= 0; i--]: [scan parts k]
    has still to look at [parts[k-1]], ..., [parts[0]], and answers the
    first index that matches. *)
Fixpoint scan (parts : list string) (k : nat) : option nat :=
  match k with
  | O => None
  | S j => if is_version (nth j parts EmptyString) then Some j else scan parts j
  end.

(** The slice expression [parts[lo:hi]]; out of range it panics. *)
Definition slice (parts : list string) (lo hi : nat) : option (list string) :=
  if (lo <=? hi)%nat && (hi <=? length parts)%nat
  then Some (firstn (hi - lo) (skipn lo parts))
  else None.

Definition parsePluginInfo (filename : string) : outcome parse_error PluginInfo :=
  let name := Strings.TrimSuffix filename ".vkp" in
  let parts := Strings.Split name "_" in
  if (length parts <? 3)%nat then Err BadFormat
  else
    match scan parts (length parts) with
    | None => Err NoVersion
    | Some versionIndex =>
        let serviceName := nth 0 parts EmptyString in
        match slice parts 1 versionIndex,
              slice parts versionIndex (length parts) with
        | Some plat, Some ver =>
            Ok {| ServiceName := serviceName;
                  Platform := Strings.Join plat "_";
                  Version := Strings.Join ver "_";
                  Filename := filename |}
        | _, _ => Panic
        end
    end.

(** The parts strictly between the first part and part [vi]. *)
Definition between (parts : list string) (vi : nat) : list string :=
  firstn (vi - 1) (skipn 1 parts).

(** *** Paths and URLs *)

(** What [url.Parse] yields, as far as the installer reads it. *)
Record URL : Type := mkURL {
  Scheme : string;
  Host : string;
  Path : string
}.

Inductive install_error : Type :=
| InvalidURL            (* validateURL *)
| NoFilename            (* extractFilename *)
| BadFilename           (* validatePluginFilename: no .vkp suffix *)
| EvictFailed           (* removing an old version failed *)
| DownloadFailed.       (* downloadFile *)

Inductive remove_error : Type :=
| FileMissing           (* os.Stat says the file does not exist *)
| UnlinkFailed.         (* os.Remove failed *)

(** *** The world outside

    The install directory is the set of names in it.  [vpksDir] itself is
    taken free of glob metacharacters (the layout is [<root>/vpks]), so
    that the pattern [vpksDir/*.vkp] is well formed and selects, inside
    that directory, the names ending in [.vkp]. *)

Inductive fetch : Type :=
| Fetched               (* 200 OK, body copied to the file *)
| NotFetched            (* request error, status other than 200, or
                           os.Create failed: no file written *)
| Truncated.            (* file created, copying the body failed *)

Record world : Type := mkWorld {
  remove_fails : string -> bool;   (* os.Remove fails on that file *)
  download : fetch                 (* what the GET and the copy do *)
}.

(** [sort.Strings], which [filepath.Glob] applies to the names it read. *)
Fixpoint insert_sorted (x : string) (l : list string) : list string :=
  match l with
  | [] => [x]
  | y :: l' => if String.leb x y then x :: l else y :: insert_sorted x l'
  end.

Definition sort_strings (l : list string) : list string :=
  fold_right insert_sorted [] l.

Section WithURLParser.

(** [url.Parse] of package [net/url]. *)
Variable url_Parse : string -> option URL.

(** The directory the installer writes to. *)
Variable vpksDir : string.

Definition validateURL (pluginURL : string) : option install_error :=
  match url_Parse pluginURL with
  | None => Some InvalidURL
  | Some parsedURL =>
      if negb (String.eqb (Scheme parsedURL) "http")
         && negb (String.eqb (Scheme parsedURL) "https")
      then Some InvalidURL
      else if String.eqb (Host parsedURL) "" then Some InvalidURL
      else None
  end.

Definition extractFilename (pluginURL : string) : outcome install_error string :=
  match url_Parse pluginURL with
  | None => Err NoFilename
  | Some parsedURL =>
      let filename := Filepath.Base (Path parsedURL) in
      if String.eqb filename "." || String.eqb filename "/"
      then Err NoFilename
      else Ok filename
  end.

(** The recommended-format pattern only decides whether a warning is
    logged; the one error is a missing [.vkp] suffix. *)
Definition validatePluginFilename (filename : string) : option install_error :=
  if negb (Strings.HasSuffix filename ".vkp") then Some BadFilename else None.

(** [filepath.Glob] fails on a malformed pattern only, which
    [vpksDir/*.vkp] is not. *)
Definition ListInstalledPlugins (dir : gset string) : outcome unit (list string) :=
  Ok (sort_strings (filter (fun f => Strings.HasSuffix f ".vkp") (elements dir))).

(** The loop of [findPluginsByService]: names that do not parse are
    skipped with a warning. *)
Fixpoint collect (serviceName : string) (plugins : list string)
  : outcome unit (list PluginInfo) :=
  match plugins with
  | [] => Ok []
  | filename :: rest =>
      match parsePluginInfo filename with
      | Panic => Panic
      | Err _ => collect serviceName rest
      | Ok pluginInfo =>
          match collect serviceName rest with
          | Ok servicePlugins =>
              if String.eqb (ServiceName pluginInfo) serviceName
              then Ok (pluginInfo :: servicePlugins)
              else Ok servicePlugins
          | other => other
          end
      end
  end.

Definition findPluginsByService (serviceName : string) (dir : gset string)
  : outcome unit (list PluginInfo) :=
  match ListInstalledPlugins dir with
  | Ok plugins => collect serviceName plugins
  | Err e => Err e
  | Panic => Panic
  end.

Definition RemovePlugin (w : world) (filename : string) (dir : gset string)
  : option remove_error * gset string :=
  if negb (bool_decide (filename ∈ dir)) then (Some FileMissing, dir)
  else if remove_fails w filename then (Some UnlinkFailed, dir)
  else (None, dir ∖ {[filename]}).

(** The eviction loop of [InstallFromURL]. *)
Fixpoint evict (w : world) (filename : string) (existingPlugins : list PluginInfo)
    (dir : gset string) : option install_error * gset string :=
  match existingPlugins with
  | [] => (None, dir)
  | existingPlugin :: rest =>
      if negb (String.eqb (Filename existingPlugin) filename)
      then
        match RemovePlugin w (Filename existingPlugin) dir with
        | (Some _, dir') => (Some EvictFailed, dir')
        | (None, dir') => evict w filename rest dir'
        end
      else evict w filename rest dir
  end.

Definition downloadFile (w : world) (filename : string) (dir : gset string)
  : option install_error * gset string :=
  match download w with
  | Fetched => (None, {[filename]} ∪ dir)
  | NotFetched => (Some DownloadFailed, dir)
  | Truncated => (Some DownloadFailed, {[filename]} ∪ dir)
  end.

Definition localPath (filename : string) : string :=
  Filepath.Join vpksDir filename.

(** The tail of [InstallFromURL]: the local path is built and the file
    downloaded to it. *)
Definition fetch_into (w : world) (pluginURL filename : string) (dir : gset string)
  : outcome install_error string * gset string :=
  match downloadFile w filename dir with
  | (Some e, dir') => (Err e, dir')
  | (None, dir') => (Ok (localPath filename), dir')
  end.

Definition InstallFromURL (w : world) (pluginURL : string) (dir : gset string)
  : outcome install_error string * gset string :=
  match validateURL pluginURL with
  | Some e => (Err e, dir)
  | None =>
  match extractFilename pluginURL with
  | Err e => (Err e, dir)
  | Panic => (Panic, dir)
  | Ok filename =>
  match validatePluginFilename filename with
  | Some e => (Err e, dir)
  | None =>
  match parsePluginInfo filename with
  | Panic => (Panic, dir)
  | Err _ => fetch_into w pluginURL filename dir
  | Ok newPluginInfo =>
      match findPluginsByService (ServiceName newPluginInfo) dir with
      | Panic => (Panic, dir)
      | Err _ => fetch_into w pluginURL filename dir
      | Ok existingPlugins =>
          match evict w filename existingPlugins dir with
          | (Some e, dir') => (Err e, dir')
          | (None, dir') => fetch_into w pluginURL filename dir'
          end
      end
  end end end end.

End WithURLParser.

(** A parser for URLs of the plain shape [scheme://host/path], enough to
    run the installer on examples. *)
Definition simple_url (u : string) : option URL :=
  match Strings.Split u "/" with
  | sch :: "" :: host :: rest =>
      if Strings.HasSuffix sch ":"
      then Some {| Scheme := substring 0 (String.length sch - 1) sch;
                   Host := host;
                   Path := String.concat "" (map (fun p => "/" ++ p) rest) |}
      else None
  | _ => None
  end.

(** The install directory holds at most one parseable [.vkp] file per
    service. *)
Definition one_per_service (dir : gset string) : Prop :=
  forall f g i j,
    f ∈ dir -> g ∈ dir ->
    Strings.HasSuffix f ".vkp" = true -> Strings.HasSuffix g ".vkp" = true ->
    parsePluginInfo f = Ok i -> parsePluginInfo g = Ok j ->
    ServiceName i = ServiceName j -> f = g.

(** Directories that calls of [InstallFromURL], and of [RemovePlugin] in
    between, produce from the empty one, whatever each call fetches and
    however it ends. *)
Inductive installed (url_Parse : string -> option URL) (vpksDir : string)
  : gset string -> Prop :=
| installed_fresh : installed url_Parse vpksDir ∅
| installed_step w pluginURL dir r dir' :
    installed url_Parse vpksDir dir ->
    InstallFromURL url_Parse vpksDir w pluginURL dir = (r, dir') ->
    installed url_Parse vpksDir dir'
| installed_remove w filename dir r dir' :
    installed url_Parse vpksDir dir ->
    RemovePlugin w filename dir = (r, dir') ->
    installed url_Parse vpksDir dir'.

(** A world in which nothing fails, and the second scenario of the
    specification: version 1.0.1 installed over version 1.0.0. *)
Definition world_ok : world :=
  {| remove_fails := fun _ => false; download := Fetched |}.

Definition after_v100 : gset string :=
  (InstallFromURL simple_url "vpks" world_ok
     "http://host/svc_linux_amd64_v1.0.0.vkp" ∅).2.

Definition after_v101 : gset string :=
  (InstallFromURL simple_url "vpks" world_ok
     "http://host/svc_linux_amd64_v1.0.1.vkp" after_v100).2.

(** *** The recommended file-name format

    [validatePluginFilename] matches the name against
    [^[a-zA-Z0-9-]+_[a-zA-Z0-9_]+_v?[0-9]+\.[0-9]+\.[0-9]+.*\.vkp$] and
    logs a warning when it does not match. *)

Definition letter_or_digit (c : ascii) : bool :=
  in_range "a" "z" c || in_range "A" "Z" c || in_range "0" "9" c.

(** [[a-zA-Z0-9-]] *)
Definition service_char (c : ascii) : bool := letter_or_digit c || Ascii.eqb c "-".

(** [[a-zA-Z0-9_]] *)
Definition platform_char (c : ascii) : bool := letter_or_digit c || Ascii.eqb c "_".

(** [.]: any character but the line feed. *)
Definition any_char (c : ascii) : bool := negb (Ascii.eqb c "010").

Definition recommended_re : regex :=
  Seq (Plus (Class service_char))
    (Seq (Chr "_")
       (Seq (Plus (Class platform_char))
          (Seq (Chr "_")
             (Seq version_re
                (Seq (Star (Class any_char))
                   (Seq (Chr ".") (Seq (Chr "v") (Seq (Chr "k") (Chr "p"))))))))).

(** Whether [validatePluginFilename] logs its warning. *)
Definition format_warning (filename : string) : bool :=
  negb (match_whole recommended_re filename).

(** The service token of a file name: what stands before the first
    underscore. *)
Definition leading_part (filename : string) : string :=
  hd EmptyString (Strings.Split filename "_").

End Installer.

(** ** The rate limiter (internal/middleware/ratelimit.go) *)

Module RateLimit.

Open Scope Z_scope.

(** *** Go's [int] and [int64] *)

Definition min_int : Z := - 2 ^ 63.
Definition max_int : Z := 2 ^ 63 - 1.

(** The value a 64-bit two's-complement register holds after an
    arithmetic operation whose mathematical result is [z]. *)
Definition wrap64 (z : Z) : Z := (z - min_int) mod 2 ^ 64 + min_int.

(** Both backends answer [(bool, error)]. *)
Inductive limiter_error : Type :=
| EvalFailed.           (* the remote store did not run the script *)

Definition reply : Type := (bool * option limiter_error)%type.

(** [AllowN] in the words of the specification, on the record of one
    key: delete what is strictly less than [windowStart = now - W]; with
    [c] what remains, answer no and leave the record when [c + n > L];
    otherwise append [n] times [now] and answer yes. *)
Definition spec_AllowN (L W : Z) (record : list Z) (now n : Z) : bool * list Z :=
  let windowStart := now - W in
  let remaining := filter (fun t => ¬ t < windowStart) record in
  let c := Z.of_nat (length remaining) in
  if L <? c + n then (false, remaining)
  else (true, (remaining ++ repeat now (Z.to_nat n))%list).

Module Memory.

(** *** The in-memory backend

    An instant ([time.Time]) is a number of nanoseconds, a
    [time.Duration] too.  The struct has three fields. *)

Record MemoryRateLimiter : Type := mkMemoryRateLimiter {
  limit : Z;
  window : Z;
  requests : gmap string (list Z)
}.

Definition NewMemoryRateLimiter (limit window : Z) : MemoryRateLimiter :=
  {| limit := limit; window := window; requests := ∅ |}.

Definition set_requests (m : MemoryRateLimiter) (r : gmap string (list Z))
  : MemoryRateLimiter :=
  {| limit := limit m; window := window m; requests := r |}.

(** [req.After(windowStart)] *)
Definition After (req windowStart : Z) : bool := windowStart <? req.

(** [now.Add(-m.window)]; the negation is an [int64] operation. *)
Definition windowStart_of (m : MemoryRateLimiter) (now : Z) : Z :=
  now + wrap64 (- window m).

(** The block that drops the expired requests: only a key that is
    present is rewritten. *)
Definition prune (m : MemoryRateLimiter) (now : Z) (key : string)
  : MemoryRateLimiter :=
  match requests m !! key with
  | Some reqs =>
      set_requests m
        (<[key := filter (fun req => After req (windowStart_of m now) = true) reqs]>
           (requests m))
  | None => m
  end.

(** [m.requests[key]] read as a value: a missing key reads as the nil
    slice. *)
Definition record_of (m : MemoryRateLimiter) (key : string) : list Z :=
  default [] (requests m !! key).

(** One round of the loop that adds the new requests. *)
Definition append_now (now : Z) (key : string) (m : MemoryRateLimiter)
  : MemoryRateLimiter :=
  set_requests m (<[key := (record_of m key ++ [now])%list]> (requests m)).

(** [AllowN].  The loop runs [n] times when [n] is positive and not at
    all otherwise.  A slice holds at most [max_int] elements: where the
    loop would have to go beyond that the run-time system stops the
    program, which is the outcome [Panic]. *)
Definition AllowN (m : MemoryRateLimiter) (now : Z) (key : string) (n : Z)
  : outcome unit (reply * MemoryRateLimiter) :=
  let m1 := prune m now key in
  let currentCount := Z.of_nat (length (record_of m1 key)) in
  if limit m1 <? wrap64 (currentCount + n) then Ok ((false, None), m1)
  else if max_int <? currentCount + Z.max 0 n then Panic
  else Ok ((true, None), Nat.iter (Z.to_nat n) (append_now now key) m1).

Definition Allow (m : MemoryRateLimiter) (now : Z) (key : string)
  : outcome unit (reply * MemoryRateLimiter) :=
  AllowN m now key 1.

Definition Reset (m : MemoryRateLimiter) (key : string)
  : option limiter_error * MemoryRateLimiter :=
  (None, set_requests m (delete key (requests m))).

Definition GetRemaining (m : MemoryRateLimiter) (now : Z) (key : string)
  : (Z * option limiter_error) * MemoryRateLimiter :=
  match requests m !! key with
  | Some reqs =>
      let validRequests :=
        filter (fun req => After req (windowStart_of m now) = true) reqs in
      ((wrap64 (limit m - Z.of_nat (length validRequests)), None),
       set_requests m (<[key := validRequests]> (requests m)))
  | None => ((limit m, None), m)
  end.

(** The calls of the [RateLimiter] interface, each made at an instant. *)
Inductive call : Type :=
| CallAllow (key : string)
| CallAllowN (key : string) (n : Z)
| CallReset (key : string)
| CallGetRemaining (key : string).

(** The limiter after a call, when the program is still running. *)
Definition after_call (m : MemoryRateLimiter) (now : Z) (c : call)
  : option MemoryRateLimiter :=
  match c with
  | CallAllow key =>
      match Allow m now key with Ok (_, m') => Some m' | _ => None end
  | CallAllowN key n =>
      match AllowN m now key n with Ok (_, m') => Some m' | _ => None end
  | CallReset key => Some (snd (Reset m key))
  | CallGetRemaining key => Some (snd (GetRemaining m now key))
  end.

(** States of a limiter made by [NewMemoryRateLimiter L W] and then
    called any number of times, one call after the other. *)
Inductive reachable (L W : Z) : MemoryRateLimiter -> Prop :=
| reachable_new : reachable L W (NewMemoryRateLimiter L W)
| reachable_call m now c m' :
    reachable L W m ->
    after_call m now c = Some m' ->
    reachable L W m'.

(** The recorded instants of [key] that lie within the last [window]
    as seen at [now]: not before [now - window], not after [now]. *)
Definition in_window (m : MemoryRateLimiter) (now : Z) (key : string) : list Z :=
  filter (fun t => now - window m <= t <= now) (record_of m key).

(** [AllowN] does on the record of [key] what the
    specification words say, answering without an error. *)
Definition AllowN_as_specified (m : MemoryRateLimiter) (now : Z) (key : string)
    (n : Z) : Prop :=
  let s := spec_AllowN (limit m) (window m) (record_of m key) now n in
  exists m', AllowN m now key n = Ok ((s.1, None), m') /\ record_of m' key = s.2.

(** Every record is at most [max 0 L] long. *)
Definition bounded (L : Z) (m : MemoryRateLimiter) : Prop :=
  limit m = L /\ forall key, Z.of_nat (length (record_of m key)) <= Z.max 0 L.

(** What a call answered. *)
Definition answer (o : outcome unit (reply * MemoryRateLimiter)) : option reply :=
  match o with
  | Ok (r, _) => Some r
  | _ => None
  end.

(** Calls made one after the other, each at its instant. *)
Definition run_calls (m : MemoryRateLimiter) (calls : list (Z * call))
  : option MemoryRateLimiter :=
  fold_left (fun om tc => match om with
                          | Some m => after_call m tc.1 tc.2
                          | None => None
                          end) calls (Some m).

Definition second : Z := 1000000000.

(** Scenario "rate-limit exhaustion": limit 2, window one second, three
    calls of [Allow] at the same instant. *)
Definition exhausted : option MemoryRateLimiter :=
  run_calls (NewMemoryRateLimiter 2 second)
    [(5 * second, CallAllow "k"); (5 * second, CallAllow "k");
     (5 * second, CallAllow "k")].

Definition exhausted_state : MemoryRateLimiter :=
  default (NewMemoryRateLimiter 2 second) exhausted.

(** A limiter of one permit per ten units with one request recorded at
    instant 90. *)
Definition one_at_90 : MemoryRateLimiter :=
  {| limit := 1; window := 10; requests := {["k" := [90]]} |}.

End Memory.

(** *** The remote backend

    The store keeps one sorted set per key: members (strings) with a
    score each, and a time to live.  A sorted set that loses its last
    member is dropped with its key.  Here [now] counts seconds. *)

Module Redis.

Record zset : Type := mkZset {
  members : gmap string Z;
  ttl : option Z
}.

Record RedisRateLimiter : Type := mkRedisRateLimiter {
  limit : Z;
  window_seconds : Z;     (* int64(r.window.Seconds()) *)
  prefix : string
}.

Definition getKey (r : RedisRateLimiter) (key : string) : string :=
  (prefix r ++ ":" ++ key)%string.

Definition members_of (db : gmap string zset) (key : string) : gmap string Z :=
  match db !! key with Some z => members z | None => ∅ end.

(** [ZREMRANGEBYSCORE key lo hi]: both bounds are inclusive. *)
Definition ZREMRANGEBYSCORE (db : gmap string zset) (key : string) (lo hi : Z)
  : gmap string zset :=
  match db !! key with
  | None => db
  | Some z =>
      let keep := filter (fun p : string * Z => ¬ (lo <= p.2 <= hi)) (members z) in
      if bool_decide (keep = ∅) then delete key db
      else <[key := {| members := keep; ttl := ttl z |}]> db
  end.

Definition ZCARD (db : gmap string zset) (key : string) : Z :=
  Z.of_nat (size (members_of db key)).

(** [ZADD key score member]: a member already there only has its score
    replaced. *)
Definition ZADD (db : gmap string zset) (key : string) (score : Z) (member : string)
  : gmap string zset :=
  match db !! key with
  | None => <[key := {| members := {[member := score]}; ttl := None |}]> db
  | Some z => <[key := {| members := <[member := score]> (members z); ttl := ttl z |}]> db
  end.

(** [EXPIRE key seconds]: a time to live that is not positive deletes
    the key at once. *)
Definition EXPIRE (db : gmap string zset) (key : string) (seconds : Z)
  : gmap string zset :=
  match db !! key with
  | None => db
  | Some z =>
      if seconds <=? 0 then delete key db
      else <[key := {| members := members z; ttl := Some seconds |}]> db
  end.

(** The member the script adds in round [i]: [now .. ':' .. i]. *)
Definition member_name (now i : Z) : string :=
  (pretty now ++ ":" ++ pretty i)%string.

(** The Lua script of [AllowN]; it answers [{allowed, current}]. *)
Definition allow_script (db : gmap string zset) (key : string)
    (window_start now limit count expire : Z) : (Z * Z) * gmap string zset :=
  let db1 := ZREMRANGEBYSCORE db key 0 window_start in
  let current := ZCARD db1 key in
  if limit <? current + count then ((0, current), db1)
  else
    let db2 :=
      fold_left (fun d i => ZADD d key now (member_name now i)) (seqZ 1 count) db1 in
    ((1, current + count), EXPIRE db2 key expire).

(** The Lua script of [GetRemaining]. *)
Definition remaining_script (db : gmap string zset) (key : string)
    (window_start limit : Z) : Z * gmap string zset :=
  let db1 := ZREMRANGEBYSCORE db key 0 window_start in
  (limit - ZCARD db1 key, db1).

(** [up] tells whether the store runs the script ([Eval] returns no
    error). *)
Definition AllowN (r : RedisRateLimiter) (up : bool) (db : gmap string zset)
    (now : Z) (key : string) (n : Z) : reply * gmap string zset :=
  let fullKey := getKey r key in
  let windowStart := wrap64 (now - window_seconds r) in
  if up then
    let '((allowed, _), db') :=
      allow_script db fullKey windowStart now (limit r) n (window_seconds r) in
    ((allowed =? 1, None), db')
  else ((false, Some EvalFailed), db).

Definition Allow (r : RedisRateLimiter) (up : bool) (db : gmap string zset)
    (now : Z) (key : string) : reply * gmap string zset :=
  AllowN r up db now key 1.

Definition Reset (r : RedisRateLimiter) (up : bool) (db : gmap string zset)
    (key : string) : option limiter_error * gmap string zset :=
  if up then (None, delete (getKey r key) db) else (Some EvalFailed, db).

Definition GetRemaining (r : RedisRateLimiter) (up : bool) (db : gmap string zset)
    (now : Z) (key : string) : (Z * option limiter_error) * gmap string zset :=
  let fullKey := getKey r key in
  let windowStart := wrap64 (now - window_seconds r) in
  if up then
    let '(remaining, db') := remaining_script db fullKey windowStart (limit r) in
    ((if remaining <? 0 then 0 else remaining, None), db')
  else ((0, Some EvalFailed), db).

(** The scores kept for [key], in the order the map lists them. *)
Definition scores_of (db : gmap string zset) (key : string) : list Z :=
  (map_to_list (members_of db key)).*2.

(** The remote [AllowN] decides as the specification
    words say, deleting only scores strictly below [now - W]. *)
Definition AllowN_as_specified (r : RedisRateLimiter) (db : gmap string zset)
    (now : Z) (key : string) (n : Z) : Prop :=
  let remaining :=
    filter (fun t => ¬ t < now - window_seconds r) (scores_of db (getKey r key)) in
  (AllowN r true db now key n).1 =
    (negb (limit r <? Z.of_nat (length remaining) + n), None).

(** One permit per ten seconds, one request recorded at second 90. *)
Definition one_per_ten : RedisRateLimiter :=
  {| limit := 1; window_seconds := 10; prefix := "rl" |}.

Definition db_at_90 : gmap string zset :=
  {["rl:k" := {| members := {["90:1" := 90]}; ttl := Some 10 |}]}.

End Redis.

(** *** Calls that overlap

    [MemoryRateLimiter] has no lock among its fields and [AllowN] takes
    none, so a second call may run between any two statements of a
    first one.  Here a call is cut into its three blocks (clean up,
    check, append), each taken as indivisible, which grants the code
    more atomicity than it asks for. *)

Module Interleaving.

Import Memory.

Inductive pc : Type :=
| AtPrune
| AtCheck
| AtAppend
| Returned (allowed : bool)
| Aborted.

Record thread : Type := mkThread {
  t_key : string;
  t_n : Z;
  t_now : Z;
  t_pc : pc
}.

Definition call_AllowN (key : string) (n now : Z) : thread :=
  {| t_key := key; t_n := n; t_now := now; t_pc := AtPrune |}.

Definition at_pc (t : thread) (p : pc) : thread :=
  {| t_key := t_key t; t_n := t_n t; t_now := t_now t; t_pc := p |}.

(** The next block of the call [t] on the shared limiter [m]. *)
Definition thread_step (m : MemoryRateLimiter) (t : thread)
  : option (MemoryRateLimiter * thread) :=
  match t_pc t with
  | AtPrune => Some (prune m (t_now t) (t_key t), at_pc t AtCheck)
  | AtCheck =>
      let currentCount := Z.of_nat (length (record_of m (t_key t))) in
      if limit m <? wrap64 (currentCount + t_n t)
      then Some (m, at_pc t (Returned false))
      else Some (m, at_pc t AtAppend)
  | AtAppend =>
      if max_int <? Z.of_nat (length (record_of m (t_key t))) + Z.max 0 (t_n t)
      then Some (m, at_pc t Aborted)
      else Some (Nat.iter (Z.to_nat (t_n t)) (append_now (t_now t) (t_key t)) m,
                 at_pc t (Returned true))
  | Returned _ => None
  | Aborted => None
  end.

(** The limiter and the calls in flight; a schedule names the call that
    moves next. *)
Definition sched_step (s : MemoryRateLimiter * list thread) (i : nat)
  : MemoryRateLimiter * list thread :=
  match s.2 !! i with
  | Some t =>
      match thread_step s.1 t with
      | Some (m', t') => (m', <[i := t']> (s.2))
      | None => s
      end
  | None => s
  end.

Definition run (schedule : list nat) (s : MemoryRateLimiter * list thread)
  : MemoryRateLimiter * list thread :=
  fold_left sched_step schedule s.

(** What the calls answered, in the order they were made. *)
Definition answers (s : MemoryRateLimiter * list thread) : list pc :=
  map t_pc s.2.

(** A call that runs its three blocks with nothing in between. *)
Definition alone (m : MemoryRateLimiter) (t : thread)
  : MemoryRateLimiter * list thread :=
  run [0; 0; 0]%nat (m, [t]).

(** Two calls of [Allow] on the key [k] of a fresh limiter of one permit
    per second, made at the same instant. *)
Definition two_calls : MemoryRateLimiter * list thread :=
  (NewMemoryRateLimiter 1 1000000000,
   [call_AllowN "k" 1 5000000000; call_AllowN "k" 1 5000000000]).

End Interleaving.

End RateLimit.

(** ** Packages, the loader and the supervisor
       (internal/plugin/interface.go, packager.go, loader.go) *)

Module Plugin.

(** A JSON value, for the free-form [config_schema]. *)
Inductive json : Type :=
| JNull
| JBool (b : bool)
| JNumber (digits : string)
| JString (s : string)
| JArray (items : list json)
| JObject (fields : list (string * json)).

Record PluginMetadata : Type := mkPluginMetadata {
  Name : string;
  Version : string;
  Description : string;
  Author : string;
  License : string;
  Dependencies : list string;
  APIVersion : string;
  MinGatewayVersion : string;
  Standalone : bool;
  ConfigSchema : list (string * json)
}.

(** *** Files

    A tar entry has a name, a type and a body.  A file holds plain bytes
    or, when its bytes are a gzip-compressed tar stream, the entries of
    that stream. *)

Inductive typeflag : Type :=
| TypeReg
| TypeDir
| TypeSymlink
| TypeOther.

Inductive content : Type :=
| Bytes (data : string)
| Archive (entries : list (string * typeflag * content)).

Record tar_entry : Type := mkEntry {
  entry_name : string;
  entry_type : typeflag;
  entry_body : content
}.

Definition to_entry (e : string * typeflag * content) : tar_entry :=
  {| entry_name := e.1.1; entry_type := e.1.2; entry_body := e.2 |}.

Definition of_entry (e : tar_entry) : string * typeflag * content :=
  (entry_name e, entry_type e, entry_body e).

Record file : Type := mkFile {
  data : content;
  mode : N
}.

(** What the calls that leave the program do. *)
Inductive so_outcome : Type :=
| SoOpenFails           (* plugin.Open fails *)
| SoNoSymbol            (* no symbol NewPlugin *)
| SoWrongSignature      (* NewPlugin is not a func() Plugin *)
| SoPlugin (name : string).  (* NewPlugin() gives a plugin of that name *)

Record world : Type := mkWorld {
  mkdir_fails : string -> bool;      (* os.MkdirAll *)
  create_fails : string -> bool;     (* os.Create, os.WriteFile *)
  chmod_fails : string -> bool;      (* os.Chmod on an existing file *)
  removeall_fails : string -> bool;  (* os.RemoveAll *)
  start : string -> list string -> option Z;  (* cmd.Start: the pid *)
  kill_fails : Z -> bool;            (* Process.Kill *)
  signal_fails : Z -> bool;          (* Process.Signal(0) *)
  open_so : string -> so_outcome     (* plugin.Open and Lookup *)
}.

Inductive plugin_error : Type :=
| NotFound
| Unsupported
| MkdirFailed
| CreateFailed
| ExtractFailed
| MetadataFailed
| ChmodFailed
| AddFailed
| GoPluginFailed
| NotLoaded
| SpawnFailed
| KillFailed
| SignalFailed.

(** *** The supervisor [VKPPlugin] *)

Record Cmd : Type := mkCmd {
  cmd_path : string;
  cmd_args : list string;
  Process : option Z       (* the pid of the started process *)
}.

Record VKPPlugin : Type := mkVKPPlugin {
  execPath : string;
  metadata : option PluginMetadata;
  cmd : option Cmd
}.

Definition GetName (p : VKPPlugin) : string :=
  match metadata p with
  | Some m => Name m
  | None => Filepath.Base (execPath p)
  end.

Definition stop (w : world) (p : VKPPlugin) : option plugin_error :=
  match cmd p with
  | Some c =>
      match Process c with
      | Some pid => if kill_fails w pid then Some KillFailed else None
      | None => None
      end
  | None => None
  end.

(** [Initialize]: the command is stored in the field before it is
    started. *)
Definition Initialize (w : world) (p : VKPPlugin) : option plugin_error * VKPPlugin :=
  let c := {| cmd_path := execPath p; cmd_args := ["--mode=gateway"]; Process := None |} in
  let p1 := {| execPath := execPath p; metadata := metadata p; cmd := Some c |} in
  match start w (cmd_path c) (cmd_args c) with
  | None => (Some SpawnFailed, p1)
  | Some pid =>
      (None,
       {| execPath := execPath p; metadata := metadata p;
          cmd := Some {| cmd_path := cmd_path c; cmd_args := cmd_args c;
                         Process := Some pid |} |})
  end.

Inductive health : Type :=
| Stopped
| Unhealthy
| Healthy (pid : Z).

Definition Health (w : world) (p : VKPPlugin) : health * option plugin_error :=
  match cmd p with
  | None => (Stopped, None)
  | Some c =>
      match Process c with
      | None => (Stopped, None)
      | Some pid =>
          if signal_fails w pid then (Unhealthy, Some SignalFailed)
          else (Healthy pid, None)
      end
  end.

Definition Shutdown (w : world) (p : VKPPlugin) : option plugin_error := stop w p.

(** The state [Extracted]: no process handle is stored. *)
Definition Extracted (p : VKPPlugin) : Prop :=
  match cmd p with
  | Some c => Process c = None
  | None => True
  end.

(** *** The loader *)

(** A value of the interface [Plugin]: a supervisor, or what the factory
    of a shared object returned. *)
Inductive Plugin : Type :=
| VKP (p : VKPPlugin)
| Native (name : string).

Definition Plugin_GetName (p : Plugin) : string :=
  match p with
  | VKP v => GetName v
  | Native name => name
  end.

Record LoadedPlugin : Type := mkLoadedPlugin {
  lp_Plugin : Plugin;
  lp_Path : string;
  ExtractDir : string
}.

Record VKPLoader : Type := mkVKPLoader {
  loadedPlugins : gmap string LoadedPlugin;
  pluginDir : string
}.

Definition NewVKPLoader (pluginDir : string) : VKPLoader :=
  {| loadedPlugins := ∅; pluginDir := pluginDir |}.

Definition set_loaded (l : VKPLoader) (m : gmap string LoadedPlugin) : VKPLoader :=
  {| loadedPlugins := m; pluginDir := pluginDir l |}.

(** The loop of [extractVKP] over the entries of the archive: regular
    files are written below [extractDir], other entries are skipped. *)
Fixpoint extract_entries (w : world) (extractDir : string)
    (entries : list tar_entry) (fs : gmap string file)
  : option plugin_error * gmap string file :=
  match entries with
  | [] => (None, fs)
  | header :: rest =>
      let target := Filepath.Join extractDir (entry_name header) in
      match entry_type header with
      | TypeReg =>
          if mkdir_fails w (Filepath.Dir target) then (Some ExtractFailed, fs)
          else if create_fails w target then (Some ExtractFailed, fs)
          else extract_entries w extractDir rest
                 (<[target := {| data := entry_body header; mode := 420 |}]> fs)
      | _ => extract_entries w extractDir rest fs
      end
  end.

Definition extractVKP (w : world) (vkpPath extractDir : string) (fs : gmap string file)
  : option plugin_error * gmap string file :=
  match fs !! vkpPath with
  | None => (Some ExtractFailed, fs)
  | Some f =>
      match data f with
      | Bytes _ => (Some ExtractFailed, fs)
      | Archive entries => extract_entries w extractDir (map to_entry entries) fs
      end
  end.

Section WithJSON.

(** [json.Unmarshal] into a [PluginMetadata] and [json.MarshalIndent] of
    one (package [encoding/json]). *)
Variable json_Unmarshal : string -> option PluginMetadata.
Variable json_MarshalIndent : PluginMetadata -> string.

Definition readPluginMetadata (extractDir : string) (fs : gmap string file)
  : outcome plugin_error PluginMetadata :=
  let metadataPath := Filepath.Join extractDir "plugin.json" in
  match fs !! metadataPath with
  | None => Err MetadataFailed
  | Some f =>
      match data f with
      | Bytes text =>
          match json_Unmarshal text with
          | Some m => Ok m
          | None => Err MetadataFailed
          end
      | Archive _ => Err MetadataFailed
      end
  end.

Definition loadVKPPlugin (w : world) (l : VKPLoader) (path : string)
    (fs : gmap string file)
  : outcome plugin_error Plugin * VKPLoader * gmap string file :=
  let extractDir :=
    Filepath.Join (Filepath.Join (pluginDir l) "temp")
      (Filepath.Base path ++ "_extracted") in
  if mkdir_fails w extractDir then (Err MkdirFailed, l, fs)
  else
    match extractVKP w path extractDir fs with
    | (Some e, fs1) => (Err e, l, fs1)
    | (None, fs1) =>
        match readPluginMetadata extractDir fs1 with
        | Err e => (Err e, l, fs1)
        | Panic => (Panic, l, fs1)
        | Ok m =>
            let binaryPath := Filepath.Join extractDir "plugin" in
            match fs1 !! binaryPath with
            | None => (Err ChmodFailed, l, fs1)
            | Some bin =>
                if chmod_fails w binaryPath then (Err ChmodFailed, l, fs1)
                else
                  let fs2 := <[binaryPath := {| data := data bin; mode := 493 |}]> fs1 in
                  let vkpPlugin :=
                    {| execPath := binaryPath; metadata := Some m; cmd := None |} in
                  let name := GetName vkpPlugin in
                  (Ok (VKP vkpPlugin),
                   set_loaded l
                     (<[name := {| lp_Plugin := VKP vkpPlugin;
                                   lp_Path := path;
                                   ExtractDir := extractDir |}]> (loadedPlugins l)),
                   fs2)
            end
        end
    end.

Definition loadGoPlugin (w : world) (l : VKPLoader) (path : string)
    (fs : gmap string file)
  : outcome plugin_error Plugin * VKPLoader * gmap string file :=
  match open_so w path with
  | SoPlugin name =>
      (Ok (Native name),
       set_loaded l
         (<[name := {| lp_Plugin := Native name; lp_Path := path;
                       ExtractDir := "" |}]> (loadedPlugins l)),
       fs)
  | _ => (Err GoPluginFailed, l, fs)
  end.

Definition LoadPlugin (w : world) (l : VKPLoader) (path : string)
    (fs : gmap string file)
  : outcome plugin_error Plugin * VKPLoader * gmap string file :=
  match fs !! path with
  | None => (Err NotFound, l, fs)
  | Some _ =>
      let ext := Filepath.Ext path in
      if String.eqb ext ".vkp" then loadVKPPlugin w l path fs
      else if String.eqb ext ".so" then loadGoPlugin w l path fs
      else (Err Unsupported, l, fs)
  end.

(** *** The packager *)

Record PackageConfig : Type := mkPackageConfig {
  ModulePath : string;
  OutputPath : string;
  Metadata : option PluginMetadata;
  IncludeFiles : list string
}.

Definition default_metadata : PluginMetadata :=
  {| Name := "unknown"; Version := "1.0.0"; Description := "VKP Plugin";
     Author := ""; License := ""; Dependencies := [];
     APIVersion := ""; MinGatewayVersion := ""; Standalone := true;
     ConfigSchema := [] |}.

Definition with_api_version (m : PluginMetadata) : PluginMetadata :=
  if String.eqb (APIVersion m) ""
  then {| Name := Name m; Version := Version m; Description := Description m;
          Author := Author m; License := License m;
          Dependencies := Dependencies m; APIVersion := "v1";
          MinGatewayVersion := MinGatewayVersion m; Standalone := Standalone m;
          ConfigSchema := ConfigSchema m |}
  else m.

Definition createMetadataFile (w : world) (metadata : option PluginMetadata)
    (filePath : string) (fs : gmap string file)
  : option plugin_error * gmap string file :=
  let m := with_api_version (default default_metadata metadata) in
  if create_fails w filePath then (Some CreateFailed, fs)
  else (None, <[filePath := {| data := Bytes (json_MarshalIndent m); mode := 420 |}]> fs).

(** [addFileToTar]: the entry written for the file at [filePath].  The
    header leaves the type flag at its zero value, which the tar writer
    turns into a regular file for a name without a trailing slash. *)
Definition addFileToTar (fs : gmap string file) (filePath tarPath : string)
  : outcome plugin_error tar_entry :=
  match fs !! filePath with
  | None => Err AddFailed
  | Some f =>
      Ok {| entry_name := tarPath;
            entry_type := if Strings.HasSuffix tarPath "/" then TypeDir else TypeReg;
            entry_body := data f |}
  end.

(** The loop over [config.IncludeFiles]: a file that cannot be added is
    skipped. *)
Fixpoint add_includes (fs : gmap string file) (files : list string) : list tar_entry :=
  match files with
  | [] => []
  | filePath :: rest =>
      match addFileToTar fs filePath (Filepath.Base filePath) with
      | Ok e => e :: add_includes fs rest
      | _ => add_includes fs rest
      end
  end.

Definition write_archive (path : string) (entries : list tar_entry)
    (fs : gmap string file) : gmap string file :=
  <[path := {| data := Archive (map of_entry entries); mode := 420 |}]> fs.

Definition createVKPPackage (w : world) (config : PackageConfig)
    (binaryPath tempDir : string) (fs : gmap string file)
  : option plugin_error * gmap string file :=
  let metadataPath := Filepath.Join tempDir "metadata.json" in
  match createMetadataFile w (Metadata config) metadataPath fs with
  | (Some e, fs1) => (Some e, fs1)
  | (None, fs1) =>
      if create_fails w (OutputPath config) then (Some CreateFailed, fs1)
      else
        let fs2 := write_archive (OutputPath config) [] fs1 in
        match addFileToTar fs2 binaryPath "plugin" with
        | Ok bin =>
            match addFileToTar fs2 metadataPath "metadata.json" with
            | Ok meta =>
                (None,
                 write_archive (OutputPath config)
                   (bin :: meta :: add_includes fs2 (IncludeFiles config)) fs2)
            | _ => (Some AddFailed, write_archive (OutputPath config) [bin] fs2)
            end
        | _ => (Some AddFailed, fs2)
        end
  end.

End WithJSON.

(** [os.RemoveAll dir]: the directory and everything below it. *)
Definition remove_tree (dir : string) (fs : gmap string file) : gmap string file :=
  filter (fun p : string * file =>
            ¬ (p.1 = dir \/ String.prefix (dir ++ "/") p.1 = true)) fs.

(** [UnloadPlugin].  What [stop] and [os.RemoveAll] return is logged and
    nothing else. *)
Definition UnloadPlugin (w : world) (l : VKPLoader) (name : string)
    (fs : gmap string file)
  : option plugin_error * VKPLoader * gmap string file :=
  match loadedPlugins l !! name with
  | None => (Some NotLoaded, l, fs)
  | Some loadedPlugin =>
      let stopped :=
        match lp_Plugin loadedPlugin with
        | VKP vkpPlugin => stop w vkpPlugin
        | Native _ => None
        end in
      let fs' :=
        if negb (String.eqb (ExtractDir loadedPlugin) "")
        then (if removeall_fails w (ExtractDir loadedPlugin) then fs
              else remove_tree (ExtractDir loadedPlugin) fs)
        else fs in
      (None, set_loaded l (delete name (loadedPlugins l)), fs')
  end.

Definition GetPlugin (l : VKPLoader) (name : string) : option Plugin * bool :=
  match loadedPlugins l !! name with
  | None => (None, false)
  | Some loadedPlugin => (Some (lp_Plugin loadedPlugin), true)
  end.

(** *** Examples *)

Definition metadata_named (name : string) : PluginMetadata :=
  {| Name := name; Version := "1.0.0"; Description := ""; Author := "";
     License := ""; Dependencies := []; APIVersion := "v1";
     MinGatewayVersion := ""; Standalone := true; ConfigSchema := [] |}.

(** A stand-in for the JSON decoder and encoder on examples: the text of
    the metadata file is the name of the plugin. *)
Definition name_Unmarshal (text : string) : option PluginMetadata :=
  if String.eqb text "" then None else Some (metadata_named text).

Definition name_Marshal (m : PluginMetadata) : string := Name m.

(** A world in which no call fails; processes get pid 4242. *)
Definition world_ok : world :=
  {| mkdir_fails := fun _ => false; create_fails := fun _ => false;
     chmod_fails := fun _ => false; removeall_fails := fun _ => false;
     start := fun _ _ => Some 4242%Z; kill_fails := fun _ => false;
     signal_fails := fun _ => false; open_so := fun _ => SoOpenFails |}.

(** A world in which no process can be started, none killed and no
    directory removed. *)
Definition world_hostile : world :=
  {| mkdir_fails := fun _ => false; create_fails := fun _ => false;
     chmod_fails := fun _ => false; removeall_fails := fun _ => true;
     start := fun _ _ => None; kill_fails := fun _ => true;
     signal_fails := fun _ => true; open_so := fun _ => SoOpenFails |}.

(** A well-formed package of the plugin [svc], as the build script makes
    it: the binary, [metadata.json] and [plugin.json]. *)
Definition svc_package (binary : string) : file :=
  {| data := Archive [("plugin", TypeReg, Bytes binary);
                      ("metadata.json", TypeReg, Bytes "svc");
                      ("plugin.json", TypeReg, Bytes "svc")];
     mode := 420 |}.

Definition two_packages : gmap string file :=
  {[ "vpks/svc_linux_amd64_v1.0.0.vkp" := svc_package "old";
     "vpks/svc_linux_amd64_v1.0.1.vkp" := svc_package "new" ]}.

(** The loader after the first of the two packages was loaded. *)
Definition loaded_once : VKPLoader * gmap string file :=
  let r := LoadPlugin name_Unmarshal world_ok (NewVKPLoader "plugins")
             "vpks/svc_linux_amd64_v1.0.0.vkp" two_packages in
  (r.1.2, r.2).

(** The supervisor as [loadVKPPlugin] builds it. *)
Definition fresh_svc : VKPPlugin :=
  {| execPath := "plugins/temp/svc.vkp_extracted/plugin";
     metadata := Some (metadata_named "svc"); cmd := None |}.

(** What the packager is given in the example: a built binary, metadata
    for [svc], no extra files. *)
Definition svc_config : PackageConfig :=
  {| ModulePath := "modules/svc"; OutputPath := "out/svc.vkp";
     Metadata := Some (metadata_named "svc"); IncludeFiles := [] |}.

Definition built : gmap string file :=
  {[ "tmp/svc" := {| data := Bytes "ELF"; mode := 493 |} ]}.

(** The package the packager writes for [svc_config]. *)
Definition packaged : gmap string file :=
  (createVKPPackage name_Marshal world_ok svc_config "tmp/svc" "tmp" built).2.

(** A loader holding a started plugin whose process cannot be killed. *)
Definition loader_with_running_svc : VKPLoader :=
  {| loadedPlugins :=
       {[ "svc" :=
            {| lp_Plugin :=
                 VKP {| execPath := execPath fresh_svc;
                        metadata := metadata fresh_svc;
                        cmd := Some {| cmd_path := execPath fresh_svc;
                                       cmd_args := ["--mode=gateway"];
                                       Process := Some 4242%Z |} |};
               lp_Path := "vpks/svc.vkp";
               ExtractDir := "plugins/temp/svc.vkp_extracted" |} ]};
     pluginDir := "plugins" |}.

(** Two statements of the specification, as they are worded. *)

(** Loading a package whose metadata name is taken fails and leaves the
    entry of that name as it was. *)
Definition conflict_refused (json_Unmarshal : string -> option PluginMetadata)
    (w : world) (l : VKPLoader) (path : string) (fs : gmap string file) : Prop :=
  let extractDir :=
    Filepath.Join (Filepath.Join (pluginDir l) "temp")
      (Filepath.Base path ++ "_extracted") in
  forall m,
    readPluginMetadata json_Unmarshal extractDir
      (extractVKP w path extractDir fs).2 = Ok m ->
    is_Some (loadedPlugins l !! Name m) ->
    exists e l' fs',
      LoadPlugin json_Unmarshal w l path fs = (Err e, l', fs') /\
      loadedPlugins l' !! Name m = loadedPlugins l !! Name m.

(** A failed spawn leaves the process-handle field as it was. *)
Definition spawn_failure_keeps_field (w : world) (p : VKPPlugin) : Prop :=
  Extracted p ->
  start w (execPath p) ["--mode=gateway"] = None ->
  (Initialize w p).1 = Some SpawnFailed /\ cmd (Initialize w p).2 = cmd p.

End Plugin.

(** ** The management endpoint DELETE /api/v1/plugins/remove *)

Module Api.

Record RemovePluginRequest : Type := mkRemovePluginRequest {
  Filename : string
}.

Record RemovePluginResponse : Type := mkRemovePluginResponse {
  status : Z;
  Success : bool
}.

(** [c.ShouldBindJSON(&req)] on a body whose [filename] member is
    [field] ([None]: no such member, or no JSON object at all); the tag
    [binding:"required"] refuses the empty string. *)
Definition ShouldBindJSON (field : option string) : option RemovePluginRequest :=
  match field with
  | Some f => if String.eqb f "" then None else Some {| Filename := f |}
  | None => None
  end.

(** [Manager.RemoveInstalledPlugin] takes the manager's lock and calls the
    installer. *)
Definition RemoveInstalledPlugin (w : Installer.world) (filename : string)
    (dir : gset string) : option Installer.remove_error * gset string :=
  Installer.RemovePlugin w filename dir.

Definition RemovePlugin (w : Installer.world) (field : option string)
    (dir : gset string) : RemovePluginResponse * gset string :=
  match ShouldBindJSON field with
  | None => ({| status := 400; Success := false |}, dir)
  | Some req =>
      match RemoveInstalledPlugin w (Filename req) dir with
      | (Some _, dir') => ({| status := 500; Success := false |}, dir')
      | (None, dir') => ({| status := 200; Success := true |}, dir')
      end
  end.

(** The specification as it is worded: 404 for a missing file, 500 when the
    deletion fails, 200 when the file is removed. *)
Definition statuses_as_specified (w : Installer.world) (filename : string)
    (dir : gset string) : Prop :=
  let resp := (RemovePlugin w (Some filename) dir).1 in
  (filename ∉ dir -> status resp = 404%Z) /\
  (filename ∈ dir -> Installer.remove_fails w filename = true -> status resp = 500%Z) /\
  (filename ∈ dir -> Installer.remove_fails w filename = false -> status resp = 200%Z).

End Api.

(** * Properties *)

(** ** The derivative matcher decides the language *)

Module RegexpFacts.

Import Regexp.

Create HintDb regex.

#[local] Hint Constructors matches : regex.

Lemma append_nil_l (s : string) : "" ++ s = s.
Proof. reflexivity. Qed.

Lemma append_cons (c : ascii) (a b : string) : String c a ++ b = String c (a ++ b).
Proof. reflexivity. Qed.

Lemma append_nil_r (s : string) : s ++ "" = s.
Proof. induction s as [|c s IH]; [done|]. by rewrite append_cons, IH. Qed.

Lemma append_assoc (a b c : string) : (a ++ b) ++ c = a ++ (b ++ c).
Proof. induction a as [|x a IH]; [done|]. by rewrite !append_cons, IH. Qed.

Lemma append_eq_nil (a b : string) : a ++ b = "" -> a = "" /\ b = "".
Proof. destruct a; [done|]. rewrite append_cons. discriminate. Qed.

Lemma nullable_matches r : nullable r = true <-> matches r "".
Proof.
  split.
  - induction r; simpl; try discriminate; intros H; eauto with regex.
    + apply andb_true_iff in H as [H1 H2].
      rewrite <- (append_nil_l ""). eauto with regex.
    + apply orb_true_iff in H as [H|H]; eauto with regex.
  - intros H. remember "" as s eqn:Hs. induction H; simpl; try done.
    + apply append_eq_nil in Hs as [-> ->]. rewrite IHmatches1, IHmatches2; done.
    + rewrite IHmatches; done.
    + rewrite IHmatches by done. apply orb_true_r.
Qed.

(** A non-empty word of [Star r] starts with a non-empty word of [r]. *)
Lemma matches_star_head r c s :
  matches (Star r) (String c s) ->
  exists s1 s2, s = s1 ++ s2 /\ matches r (String c s1) /\ matches (Star r) s2.
Proof.
  intros H. remember (Star r) as r' eqn:Hr. remember (String c s) as w eqn:Hw.
  revert c s Hw. induction H; try discriminate; intros c s Hw.
  injection Hr as ->.
  destruct s1 as [|c1 s1].
  - rewrite append_nil_l in Hw. eauto.
  - rewrite append_cons in Hw. injection Hw as -> <-. eauto.
Qed.

Lemma deriv_matches r c s : matches (deriv c r) s <-> matches r (String c s).
Proof.
  revert s. induction r as [| |p|r1 IH1 r2 IH2|r1 IH1 r2 IH2|r IH]; intros s; simpl.
  - split; inversion 1.
  - split; inversion 1.
  - destruct (p c) eqn:Hp; split; intros H.
    + inversion H; subst. by constructor.
    + inversion H; subst. constructor.
    + inversion H.
    + inversion H; subst. congruence.
  - assert (matches (Seq (deriv c r1) r2) s ->
            matches (Seq r1 r2) (String c s)) as Hhead.
    { inversion 1 as [| |? ? s1 s2 H1 H2| | | |]; subst. apply IH1 in H1.
      rewrite <- append_cons. eauto with regex. }
    assert (matches (Seq r1 r2) (String c s) ->
            matches (Seq (deriv c r1) r2) s \/
            (matches r1 "" /\ matches (deriv c r2) s)) as Hsplit.
    { inversion 1 as [| |? ? s1 s2 H1 H2 [Hr1 Hr2] Heq| | | |]; subst.
      destruct s1 as [|c1 s1].
      - rewrite append_nil_l in Heq. subst. right. split; [done|by apply IH2].
      - rewrite append_cons in Heq. injection Heq as -> <-. left.
        constructor; [by apply IH1|done]. }
    destruct (nullable r1) eqn:Hn.
    + split.
      * inversion 1 as [| | |? ? ? H1|? ? ? H1| |]; subst; [by apply Hhead|].
        rewrite <- (append_nil_l (String c s)).
        constructor; [by apply nullable_matches | by apply IH2].
      * intros H. destruct (Hsplit H) as [H'|[_ H']]; eauto with regex.
    + split; [apply Hhead|].
      intros H. destruct (Hsplit H) as [H'|[H' _]]; [done|].
      apply nullable_matches in H'. congruence.
  - split; inversion 1 as [| | |? ? ? H1|? ? ? H1| |]; subst.
    + apply matches_alt_l. by apply IH1.
    + apply matches_alt_r. by apply IH2.
    + apply matches_alt_l. by apply IH1.
    + apply matches_alt_r. by apply IH2.
  - split.
    + inversion 1 as [| |? ? s1 s2 H1 H2| | | |]; subst. apply IH in H1.
      rewrite <- append_cons. eauto with regex.
    + intros H. apply matches_star_head in H as (s1 & s2 & -> & H1 & H2).
      constructor; [by apply IH|done].
Qed.

Lemma match_whole_correct r s : match_whole r s = true <-> matches r s.
Proof.
  revert r. induction s as [|c s IH]; intros r; simpl.
  - apply nullable_matches.
  - rewrite IH. apply deriv_matches.
Qed.

(** [match_prefix]: some prefix of the text is a word of the language. *)
Lemma match_prefix_correct r s :
  match_prefix r s = true <-> exists p q, s = p ++ q /\ matches r p.
Proof.
  revert r. induction s as [|c s IH]; intros r; simpl.
  - rewrite orb_false_r, nullable_matches. split.
    + intros H. by exists "", "".
    + intros (p & q & Hs & H). symmetry in Hs.
      apply append_eq_nil in Hs as [-> _]. done.
  - rewrite orb_true_iff, nullable_matches, IH. split.
    + intros [H|(p & q & -> & H)].
      * by exists "", (String c s).
      * exists (String c p), q. split; [done|by apply deriv_matches].
    + intros (p & q & Hs & H). destruct p as [|c' p]; [by left|].
      rewrite append_cons in Hs. injection Hs as <- ->. right.
      exists p, q. split; [done|by apply deriv_matches].
Qed.

(** The words of [[0-9]+] are the numbers. *)
Lemma matches_star_digit s : matches (Star digit) s <-> all_digits s = true.
Proof.
  split.
  - intros H. remember (Star digit) as r eqn:Hr.
    induction H as [| | | | | |r s1 s2 H1 _ H2 IH2]; try discriminate; [done|].
    injection Hr as ->. inversion H1 as [|? c Hc| | | | |]; subst.
    rewrite append_cons, append_nil_l.
    simpl. rewrite Hc. by apply IH2.
  - induction s as [|c s IH]; simpl; [constructor|].
    intros [Hc Hs]%andb_true_iff.
    rewrite <- (append_nil_l s), <- append_cons.
    constructor; [by constructor | by apply IH].
Qed.

Lemma matches_plus_digit s : matches (Plus digit) s <-> number s.
Proof.
  unfold Plus, number. split.
  - inversion 1 as [| |? ? s1 s2 H1 H2| | | |]; subst.
    inversion H1 as [|? c Hc| | | | |]; subst. rewrite append_cons, append_nil_l.
    split; [discriminate|]. simpl.
    apply matches_star_digit in H2. by rewrite Hc, H2.
  - intros [Hne Hd]. destruct s as [|c s]; [done|]. simpl in Hd.
    apply andb_true_iff in Hd as [Hc Hs].
    rewrite <- (append_nil_l s), <- append_cons.
    constructor; [by constructor | by apply matches_star_digit].
Qed.

Lemma matches_seq_iff r1 r2 s :
  matches (Seq r1 r2) s <-> exists s1 s2, s = s1 ++ s2 /\ matches r1 s1 /\ matches r2 s2.
Proof.
  split.
  - inversion 1 as [| |? ? s1 s2 H1 H2| | | |]; subst. eauto.
  - intros (s1 & s2 & -> & H1 & H2). by constructor.
Qed.

Lemma matches_chr c s : matches (Chr c) s <-> s = String c "".
Proof.
  unfold Chr. split.
  - inversion 1 as [|? c' Hc| | | | |]; subst.
    apply Ascii.eqb_eq in Hc. by subst.
  - intros ->. constructor. apply Ascii.eqb_refl.
Qed.

Lemma matches_opt r s : matches (Opt r) s <-> s = "" \/ matches r s.
Proof.
  unfold Opt. split.
  - inversion 1 as [| | |? ? ? H1|? ? ? H1| |]; subst; [left|by right].
    by inversion H1.
  - intros [->|H]; [apply matches_alt_l; constructor | by apply matches_alt_r].
Qed.

End RegexpFacts.

(** ** File-name parsing *)

Module InstallerFacts.

Import Installer.

(** A part looks like a version when it starts with an optional [v] and
    three numbers separated by dots. *)
Lemma is_version_iff part :
  is_version part = true <->
  exists v major minor patch rest,
    part = v ++ major ++ "." ++ minor ++ "." ++ patch ++ rest /\
    (v = "" \/ v = "v") /\
    Regexp.number major /\ Regexp.number minor /\ Regexp.number patch.
Proof.
  unfold is_version, version_re.
  rewrite RegexpFacts.match_prefix_correct. split.
  - intros (p & rest & -> & Hm).
    apply RegexpFacts.matches_seq_iff in Hm as (v & p1 & -> & Hv & Hm).
    apply RegexpFacts.matches_seq_iff in Hm as (major & p2 & -> & Hmajor & Hm).
    apply RegexpFacts.matches_seq_iff in Hm as (d1 & p3 & -> & Hd1 & Hm).
    apply RegexpFacts.matches_seq_iff in Hm as (minor & p4 & -> & Hminor & Hm).
    apply RegexpFacts.matches_seq_iff in Hm as (d2 & patch & -> & Hd2 & Hpatch).
    apply RegexpFacts.matches_chr in Hd1 as ->, Hd2 as ->.
    apply RegexpFacts.matches_plus_digit in Hmajor, Hminor, Hpatch.
    exists v, major, minor, patch, rest.
    refine (conj _ (conj _ (conj Hmajor (conj Hminor Hpatch)))).
    + by rewrite !RegexpFacts.append_assoc.
    + apply RegexpFacts.matches_opt in Hv as [->|Hv]; [by left|right].
      by apply RegexpFacts.matches_chr in Hv.
  - intros (v & major & minor & patch & rest & -> & Hv & Hmajor & Hminor & Hpatch).
    exists (v ++ major ++ "." ++ minor ++ "." ++ patch), rest.
    split; [by rewrite !RegexpFacts.append_assoc|].
    apply RegexpFacts.matches_plus_digit in Hmajor, Hminor, Hpatch.
    apply Regexp.matches_seq.
    { apply RegexpFacts.matches_opt.
      destruct Hv as [->| ->]; [by left | right; by apply RegexpFacts.matches_chr]. }
    apply Regexp.matches_seq; [done|].
    apply Regexp.matches_seq; [by apply RegexpFacts.matches_chr|].
    apply Regexp.matches_seq; [done|].
    apply Regexp.matches_seq; [by apply RegexpFacts.matches_chr|done].
Qed.

Example is_version_examples :
  map is_version ["v1.0.0"; "1.2.3"; "v10.20.30-rc1"; "v1.0.0.vkp";
                  "v1.0"; "amd64"; "vv1.0.0"; "1..2.3"; "V1.0.0"; ""]
  = [true; true; true; true; false; false; false; false; false; false].
Proof. reflexivity. Qed.

Lemma scan_Some parts k j :
  scan parts k = Some j <->
  (j < k)%nat /\ is_version (nth j parts EmptyString) = true /\
  (forall i, (j < i < k)%nat -> is_version (nth i parts EmptyString) = false).
Proof.
  induction k as [|k IH]; simpl.
  - split; [discriminate | intros [H _]; lia].
  - destruct (is_version (nth k parts EmptyString)) eqn:Hk.
    + split.
      * intros [= <-]. repeat split; [lia | done | intros i Hi; lia].
      * intros (Hj & Hv & Hlast).
        destruct (decide (j = k)) as [->|Hne]; [done|].
        rewrite (Hlast k) in Hk by lia. discriminate.
    + rewrite IH. split.
      * intros (Hj & Hv & Hlast). repeat split; [lia | done |].
        intros i Hi. destruct (decide (i = k)) as [->|Hne]; [done|].
        apply Hlast. lia.
      * intros (Hj & Hv & Hlast).
        assert (j <> k) by (intros ->; congruence).
        repeat split; [lia | done | intros i Hi; apply Hlast; lia].
Qed.

Lemma scan_None parts k :
  scan parts k = None ->
  forall i, (i < k)%nat -> is_version (nth i parts EmptyString) = false.
Proof.
  induction k as [|k IH]; simpl; [intros _ i Hi; lia|].
  destruct (is_version (nth k parts EmptyString)) eqn:Hk; [discriminate|].
  intros Hs i Hi. destruct (decide (i = k)) as [->|Hne]; [done|].
  apply IH; [done|lia].
Qed.

(** C4.  [parsePluginInfo] succeeds exactly when the name, without its
    [.vkp] suffix, has at least three underscore-separated parts and the
    rightmost part that starts like a version [v?D+.D+.D+] is not the
    first part; the service is then the first part, the platform the
    parts between the first part and that part, the version that part
    and everything after it.  [foo_linux_amd64_v1.0.0.vkp] gives service
    [foo], platform [linux_amd64], version [v1.0.0], and
    [foo_linux_amd64_v10.20.30-rc1.vkp] parses too, its version token
    matching by its leading form. *)
Theorem parsePluginInfo_right_to_left :
  (forall filename info,
     parsePluginInfo filename = Ok info <->
     let parts := Strings.Split (Strings.TrimSuffix filename ".vkp") "_" in
     exists vi,
       (3 <= length parts)%nat /\ (1 <= vi < length parts)%nat /\
       is_version (nth vi parts EmptyString) = true /\
       (forall j, (vi < j < length parts)%nat ->
                  is_version (nth j parts EmptyString) = false) /\
       info = {| ServiceName := nth 0 parts EmptyString;
                 Platform := Strings.Join (between parts vi) "_";
                 Version := Strings.Join (skipn vi parts) "_";
                 Filename := filename |}) /\
  parsePluginInfo "foo_linux_amd64_v1.0.0.vkp" =
    Ok {| ServiceName := "foo"; Platform := "linux_amd64";
          Version := "v1.0.0"; Filename := "foo_linux_amd64_v1.0.0.vkp" |} /\
  parsePluginInfo "foo_linux_amd64_v10.20.30-rc1.vkp" =
    Ok {| ServiceName := "foo"; Platform := "linux_amd64";
          Version := "v10.20.30-rc1";
          Filename := "foo_linux_amd64_v10.20.30-rc1.vkp" |}.
Proof.
  split; [|split; reflexivity].
  intros filename info. cbv zeta. unfold parsePluginInfo.
  set (parts := Strings.Split _ _).
  destruct (length parts <? 3)%nat eqn:Hlen.
  - apply Nat.ltb_lt in Hlen. split; [discriminate|].
    intros (vi & H3 & _). lia.
  - apply Nat.ltb_ge in Hlen.
    destruct (scan parts (length parts)) as [vi|] eqn:Hscan.
    + apply scan_Some in Hscan as (Hvi & Hv & Hlast).
      unfold slice.
      rewrite (proj2 (Nat.leb_le vi (length parts))) by lia.
      rewrite Nat.leb_refl, andb_true_r.
      destruct (1 <=? vi)%nat eqn:H1; simpl.
      * apply Nat.leb_le in H1.
        replace (firstn (length parts - vi) (skipn vi parts)) with (skipn vi parts)
          by (symmetry; apply firstn_all2; rewrite length_skipn; lia).
        split.
        -- intros [= <-]. exists vi. repeat split; try done; lia.
        -- intros (vj & _ & Hvj & Hv' & Hlast' & ->).
           assert (vj = vi) as ->; [|done].
           destruct (Nat.lt_trichotomy vj vi) as [Hlt|[->|Hgt]]; [|done|].
           ++ rewrite (Hlast' vi) in Hv by lia. discriminate.
           ++ rewrite (Hlast vj) in Hv' by lia. discriminate.
      * apply Nat.leb_gt in H1. split; [discriminate|].
        intros (vj & _ & Hvj & Hv' & Hlast' & _).
        rewrite (Hlast vj) in Hv' by lia. discriminate.
    + split; [discriminate|].
      intros (vj & _ & Hvj & Hv' & _).
      rewrite (scan_None _ _ Hscan vj) in Hv' by lia. discriminate.
Qed.

(** The parse of [svc_linux_amd64_v1.0.1.vkp], read off the theorem. *)
Lemma parsePluginInfo_right_to_left_witness :
  let parts := Strings.Split (Strings.TrimSuffix "svc_linux_amd64_v1.0.1.vkp" ".vkp") "_" in
  exists vi,
    (3 <= length parts)%nat /\ (1 <= vi < length parts)%nat /\
    is_version (nth vi parts EmptyString) = true /\
    (forall j, (vi < j < length parts)%nat ->
               is_version (nth j parts EmptyString) = false) /\
    {| ServiceName := "svc"; Platform := "linux_amd64"; Version := "v1.0.1";
       Filename := "svc_linux_amd64_v1.0.1.vkp" |} =
    {| ServiceName := nth 0 parts EmptyString;
       Platform := Strings.Join (between parts vi) "_";
       Version := Strings.Join (skipn vi parts) "_";
       Filename := "svc_linux_amd64_v1.0.1.vkp" |}.
Proof.
  exact (proj1 (proj1 parsePluginInfo_right_to_left
                  "svc_linux_amd64_v1.0.1.vkp" _)
           ltac:(vm_compute; reflexivity)).
Defined.

(** A name whose only version-like part is the first one makes the
    slice [parts[1:0]] and the parser panics. *)
Example parsePluginInfo_version_first :
  parsePluginInfo "1.2.3_linux_amd64.vkp" = Panic.
Proof. reflexivity. Qed.

Example parsePluginInfo_malformed :
  parsePluginInfo "malformed.vkp" = Err BadFormat.
Proof. reflexivity. Qed.

(** *** One installed version per service *)

Lemma parse_Filename filename info :
  parsePluginInfo filename = Ok info -> Filename info = filename.
Proof.
  unfold parsePluginInfo.
  repeat (case_match; try discriminate).
  by intros [= <-].
Qed.

Lemma elem_of_insert_sorted x y l : x ∈ insert_sorted y l <-> x = y \/ x ∈ l.
Proof.
  induction l as [|z l IH]; simpl.
  - rewrite list_elem_of_singleton. set_solver.
  - destruct (String.leb y z); rewrite !elem_of_cons; [done|].
    rewrite IH. tauto.
Qed.

Lemma elem_of_sort_strings x l : x ∈ sort_strings l <-> x ∈ l.
Proof.
  induction l as [|y l IH]; simpl; [done|].
  rewrite elem_of_insert_sorted, elem_of_cons, IH. done.
Qed.

Lemma elem_of_listed dir plugins f :
  ListInstalledPlugins dir = Ok plugins ->
  f ∈ plugins <-> f ∈ dir /\ Strings.HasSuffix f ".vkp" = true.
Proof.
  intros [= <-]. rewrite elem_of_sort_strings, list_elem_of_filter, elem_of_elements.
  destruct (Strings.HasSuffix f ".vkp"); simpl; intuition (auto; discriminate).
Qed.

Lemma collect_complete serviceName plugins found f info :
  collect serviceName plugins = Ok found ->
  f ∈ plugins ->
  parsePluginInfo f = Ok info ->
  ServiceName info = serviceName ->
  info ∈ found.
Proof.
  revert found. induction plugins as [|g rest IH]; intros found Hc Hin Hp Hs.
  - by apply elem_of_nil in Hin.
  - simpl in Hc. apply elem_of_cons in Hin as [<-|Hin].
    + rewrite Hp in Hc.
      destruct (collect serviceName rest) as [servicePlugins| |]; try discriminate.
      rewrite (proj2 (String.eqb_eq _ _) Hs) in Hc.
      simplify_eq. apply list_elem_of_here.
    + destruct (parsePluginInfo g) as [pluginInfo|e|]; [| by eauto | discriminate].
      destruct (collect serviceName rest) as [servicePlugins| |]; try discriminate.
      specialize (IH _ eq_refl Hin Hp Hs).
      destruct (String.eqb (ServiceName pluginInfo) serviceName);
        simplify_eq; [by apply list_elem_of_further | done].
Qed.

Lemma RemovePlugin_shrinks w filename dir r dir' :
  RemovePlugin w filename dir = (r, dir') ->
  dir' ⊆ dir /\ (r = None -> filename ∉ dir').
Proof.
  unfold RemovePlugin. repeat case_match; intros [= <- <-];
    (split; [set_solver | try discriminate]).
  intros _. set_solver.
Qed.

Lemma evict_shrinks w filename existing dir r dir' :
  evict w filename existing dir = (r, dir') ->
  dir' ⊆ dir /\
  (r = None ->
   forall e, e ∈ existing -> Filename e <> filename -> Filename e ∉ dir').
Proof.
  revert dir. induction existing as [|x rest IH]; intros dir; simpl.
  - intros [= <- <-]. split; [done|]. intros _ e He. by apply elem_of_nil in He.
  - destruct (String.eqb (Filename x) filename) eqn:Hx; simpl.
    + apply String.eqb_eq in Hx. intros Hev.
      destruct (IH _ Hev) as [Hsub Hgone]. split; [done|].
      intros Hr e He Hne. apply elem_of_cons in He as [->|He]; [done|].
      by apply Hgone.
    + destruct (RemovePlugin w (Filename x) dir) as [[err|] dir1] eqn:Hrm.
      * intros [= <- <-]. apply RemovePlugin_shrinks in Hrm as [Hsub _].
        split; [done | discriminate].
      * intros Hev. apply RemovePlugin_shrinks in Hrm as [Hsub Hx'].
        destruct (IH _ Hev) as [Hsub' Hgone]. split; [set_solver|].
        intros Hr e He Hne. apply elem_of_cons in He as [->|He].
        -- specialize (Hx' eq_refl). set_solver.
        -- by apply Hgone.
Qed.

Lemma fetch_into_grows vpksDir w pluginURL filename dir r dir' :
  fetch_into vpksDir w pluginURL filename dir = (r, dir') ->
  dir' ⊆ {[filename]} ∪ dir /\
  (forall path, r = Ok path -> filename ∈ dir').
Proof.
  unfold fetch_into, downloadFile.
  destruct (download w); intros [= <- <-]; (split; [set_solver|]);
    intros path; try discriminate.
  intros _. set_solver.
Qed.

Lemma one_per_service_subseteq dir dir' :
  dir' ⊆ dir -> one_per_service dir -> one_per_service dir'.
Proof. intros Hsub Hinv f g i j Hf Hg. apply Hinv; set_solver. Qed.

(** What a call that reaches the download leaves behind when the new
    name parses: no other parseable package of that service. *)
Lemma evicted_then_fetched vpksDir w pluginURL filename info dir existing dir1 r dir' :
  parsePluginInfo filename = Ok info ->
  findPluginsByService (ServiceName info) dir = Ok existing ->
  evict w filename existing dir = (None, dir1) ->
  fetch_into vpksDir w pluginURL filename dir1 = (r, dir') ->
  forall g j, g ∈ dir' -> Strings.HasSuffix g ".vkp" = true ->
    parsePluginInfo g = Ok j -> ServiceName j = ServiceName info -> g = filename.
Proof.
  intros Hp Hfind Hev Hfetch g j Hg Hsuf Hpg Hs.
  destruct (decide (g = filename)) as [|Hne]; [done|exfalso].
  apply fetch_into_grows in Hfetch as [Hsub _].
  apply evict_shrinks in Hev as [Hsub1 Hgone].
  assert (g ∈ dir1) as Hg1 by set_solver.
  unfold findPluginsByService in Hfind.
  destruct (ListInstalledPlugins dir) as [plugins| |] eqn:Hl; try discriminate.
  assert (g ∈ plugins) as Hgl by (apply (elem_of_listed _ _ _ Hl); set_solver).
  pose proof (collect_complete _ _ _ _ _ Hfind Hgl Hpg Hs) as Hj.
  apply (Hgone eq_refl j Hj); rewrite (parse_Filename _ _ Hpg); done.
Qed.

Lemma collect_no_Err serviceName plugins e :
  collect serviceName plugins <> Err e.
Proof.
  induction plugins as [|x l IH]; simpl; [discriminate|].
  repeat case_match; try discriminate; congruence.
Qed.

Lemma findPluginsByService_no_Err serviceName dir e :
  findPluginsByService serviceName dir <> Err e.
Proof. unfold findPluginsByService. simpl. apply collect_no_Err. Qed.

Lemma InstallFromURL_keeps url_Parse vpksDir w pluginURL dir r dir' :
  InstallFromURL url_Parse vpksDir w pluginURL dir = (r, dir') ->
  one_per_service dir -> one_per_service dir'.
Proof.
  unfold InstallFromURL. intros Hcall Hinv.
  destruct (validateURL url_Parse pluginURL); [by simplify_eq|].
  destruct (extractFilename url_Parse pluginURL) as [filename|e|];
    [| by simplify_eq ..].
  destruct (validatePluginFilename filename); [by simplify_eq|].
  destruct (parsePluginInfo filename) as [info|e|] eqn:Hp;
    [| | by simplify_eq].
  - destruct (findPluginsByService (ServiceName info) dir) as [existing|e|] eqn:Hfind;
      [| by apply findPluginsByService_no_Err in Hfind | by simplify_eq].
    destruct (evict w filename existing dir) as [[e|] dir1] eqn:Hev.
    + simplify_eq. apply evict_shrinks in Hev as [Hsub _].
      by eapply one_per_service_subseteq.
    + pose proof (evicted_then_fetched _ _ _ _ _ _ _ _ _ _ Hp Hfind Hev Hcall) as Honly.
      pose proof (evict_shrinks _ _ _ _ _ _ Hev) as [Hsub1 _].
      pose proof (fetch_into_grows _ _ _ _ _ _ _ Hcall) as [Hsub _].
      intros f g i j Hf Hg Hsf Hsg Hpf Hpg Hs.
      destruct (decide (f = filename)) as [->|Hnf].
      { rewrite Hp in Hpf. simplify_eq. symmetry. by eapply Honly. }
      destruct (decide (g = filename)) as [->|Hng].
      { rewrite Hp in Hpg. simplify_eq. by eapply Honly. }
      apply (Hinv f g i j); [| | done ..]; apply Hsub1.
      * apply Hsub in Hf. clear -Hf Hnf. set_solver.
      * apply Hsub in Hg. clear -Hg Hng. set_solver.
  - pose proof (fetch_into_grows _ _ _ _ _ _ _ Hcall) as [Hsub _].
    intros f g i j Hf Hg Hsf Hsg Hpf Hpg Hs.
    destruct (decide (f = filename)) as [->|Hnf]; [congruence|].
    destruct (decide (g = filename)) as [->|Hng]; [congruence|].
    apply (Hinv f g i j); [| | done ..].
    + apply Hsub in Hf. clear -Hf Hnf. set_solver.
    + apply Hsub in Hg. clear -Hg Hng. set_solver.
Qed.

(** C1.  In a directory that only calls of [InstallFromURL] have written
    to, no two parseable [.vkp] files have the same service; and a call
    that succeeds for a file name parsing to service [s] leaves that file
    as the only parseable [.vkp] file of service [s], whatever was in the
    directory before. *)
Theorem one_installed_version_per_service url_Parse vpksDir :
  (forall dir, installed url_Parse vpksDir dir -> one_per_service dir) /\
  (forall w pluginURL dir path dir' filename info,
     InstallFromURL url_Parse vpksDir w pluginURL dir = (Ok path, dir') ->
     extractFilename url_Parse pluginURL = Ok filename ->
     parsePluginInfo filename = Ok info ->
     filename ∈ dir' /\
     forall g j, g ∈ dir' -> Strings.HasSuffix g ".vkp" = true ->
       parsePluginInfo g = Ok j -> ServiceName j = ServiceName info ->
       g = filename).
Proof.
  split.
  - induction 1 as [|w pluginURL dir r dir' _ IH Hcall
                     |w filename dir r dir' _ IH Hcall].
    + intros f g i j Hf. set_solver.
    + by eapply InstallFromURL_keeps.
    + apply RemovePlugin_shrinks in Hcall as [Hsub _].
      by eapply one_per_service_subseteq.
  - intros w pluginURL dir path dir' filename info Hcall Hname Hp.
    unfold InstallFromURL in Hcall.
    destruct (validateURL url_Parse pluginURL); [discriminate|].
    rewrite Hname in Hcall.
    destruct (validatePluginFilename filename); [discriminate|].
    rewrite Hp in Hcall.
    destruct (findPluginsByService (ServiceName info) dir) as [existing|e|] eqn:Hfind;
      [| by apply findPluginsByService_no_Err in Hfind | discriminate].
    destruct (evict w filename existing dir) as [[e|] dir1] eqn:Hev; [discriminate|].
    split.
    + by apply (proj2 (fetch_into_grows _ _ _ _ _ _ _ Hcall) path).
    + by eapply evicted_then_fetched.
Qed.

(** Version 1.0.1 installed over version 1.0.0. *)
Lemma one_installed_version_per_service_witness :
  one_per_service after_v101 /\
  "svc_linux_amd64_v1.0.1.vkp" ∈ after_v101 /\
  (forall g j, g ∈ after_v101 -> Strings.HasSuffix g ".vkp" = true ->
     parsePluginInfo g = Ok j -> ServiceName j = "svc" ->
     g = "svc_linux_amd64_v1.0.1.vkp").
Proof.
  split.
  - apply (proj1 (one_installed_version_per_service simple_url "vpks")).
    eapply installed_step; [eapply installed_step; [apply installed_fresh|] |];
      apply surjective_pairing.
  - apply (proj2 (one_installed_version_per_service simple_url "vpks")
             world_ok "http://host/svc_linux_amd64_v1.0.1.vkp" after_v100
             "vpks/svc_linux_amd64_v1.0.1.vkp" after_v101
             "svc_linux_amd64_v1.0.1.vkp"
             {| ServiceName := "svc"; Platform := "linux_amd64";
                Version := "v1.0.1";
                Filename := "svc_linux_amd64_v1.0.1.vkp" |});
      vm_compute; reflexivity.
Defined.

(** Scenario "version replacement": only the newer file remains. *)
Example version_replacement :
  elements after_v100 = ["svc_linux_amd64_v1.0.0.vkp"] /\
  elements after_v101 = ["svc_linux_amd64_v1.0.1.vkp"].
Proof. split; vm_compute; reflexivity. Qed.

End InstallerFacts.

(** ** The endpoint DELETE /remove *)

Module ApiFacts.

Import Api.

Open Scope Z_scope.

(** C7, as worded, fails: for a file that is not there the handler
    answers 500, not 404. *)
Lemma remove_missing_file_not_404 :
  ¬ statuses_as_specified Installer.world_ok "ghost_linux_amd64_v1.0.0.vkp" ∅.
Proof.
  intros (Hmissing & _).
  assert (status (RemovePlugin Installer.world_ok
                    (Some "ghost_linux_amd64_v1.0.0.vkp") ∅).1 = 500) as H500
    by reflexivity.
  rewrite Hmissing in H500; [discriminate | set_solver].
Qed.

(** C7, amended.  The handler answers 400 when the body does not bind to
    a non-empty [filename], 500 when the file is missing and also when
    deleting it fails (the directory is then as before), and 200 when the
    file was removed; it never answers 404. *)
Theorem remove_endpoint_statuses (w : Installer.world) (field : option string)
    (dir : gset string) :
  let r := RemovePlugin w field dir in
  (ShouldBindJSON field = None -> status r.1 = 400 /\ r.2 = dir) /\
  (forall filename,
     ShouldBindJSON field = Some {| Filename := filename |} ->
     (filename ∉ dir -> status r.1 = 500 /\ r.2 = dir) /\
     (filename ∈ dir -> Installer.remove_fails w filename = true ->
        status r.1 = 500 /\ r.2 = dir) /\
     (filename ∈ dir -> Installer.remove_fails w filename = false ->
        status r.1 = 200 /\ Success r.1 = true /\ r.2 = dir ∖ {[filename]})) /\
  status r.1 <> 404.
Proof.
  cbv zeta. unfold RemovePlugin, RemoveInstalledPlugin, Installer.RemovePlugin.
  destruct (ShouldBindJSON field) as [[filename]|] eqn:Hbind; simpl.
  - split; [discriminate|]. split.
    + intros f [= <-].
      destruct (bool_decide (filename ∈ dir)) eqn:Hd;
        [apply bool_decide_eq_true in Hd | apply bool_decide_eq_false in Hd];
        destruct (Installer.remove_fails w filename) eqn:Hr; simpl;
        repeat split; intros; done.
    + repeat case_match; simplify_eq; done.
  - split; [done|]. split; [discriminate | done].
Qed.

(** Removing the installed package: 200. *)
Lemma remove_endpoint_statuses_witness :
  let r := RemovePlugin Installer.world_ok (Some "svc_linux_amd64_v1.0.1.vkp")
             Installer.after_v101 in
  status r.1 = 200 /\ Success r.1 = true /\
  r.2 = Installer.after_v101 ∖ {["svc_linux_amd64_v1.0.1.vkp"]}.
Proof.
  refine (proj2 (proj2 (proj1 (proj2
            (remove_endpoint_statuses Installer.world_ok
               (Some "svc_linux_amd64_v1.0.1.vkp") Installer.after_v101))
            "svc_linux_amd64_v1.0.1.vkp" eq_refl)) _ eq_refl).
  vm_compute. reflexivity.
Defined.

(** Scenario "remove": the second call finds nothing and answers 500. *)
Example remove_twice :
  let r1 := RemovePlugin Installer.world_ok (Some "svc_linux_amd64_v1.0.1.vkp")
              Installer.after_v101 in
  let r2 := RemovePlugin Installer.world_ok (Some "svc_linux_amd64_v1.0.1.vkp") r1.2 in
  status r1.1 = 200 /\ status r2.1 = 500.
Proof. vm_compute. split; reflexivity. Qed.

End ApiFacts.

(** ** Packages, loader and supervisor *)

Module PluginFacts.

Import Plugin.

(** Case analysis on every [match] of the goal and the hypotheses, with
    the impossible cases closed. *)
Ltac cases := repeat (case_match; simplify_eq).

(** *** Unloading *)

(** C10.  For a name that is loaded, [UnloadPlugin] returns nil and
    deletes the entry, so that [GetPlugin] then reports the name absent,
    whatever killing the process and removing the extraction directory
    do; for a name that is not loaded it returns the not-loaded error and
    changes nothing; it returns no other error. *)
Theorem UnloadPlugin_fails_only_when_absent (w : world) (l : VKPLoader)
    (name : string) (fs : gmap string file) :
  (is_Some (loadedPlugins l !! name) ->
   exists l' fs',
     UnloadPlugin w l name fs = (None, l', fs') /\
     GetPlugin l' name = (None, false) /\
     forall other, other <> name ->
       loadedPlugins l' !! other = loadedPlugins l !! other) /\
  (loadedPlugins l !! name = None ->
   UnloadPlugin w l name fs = (Some NotLoaded, l, fs)) /\
  (forall e l' fs',
     UnloadPlugin w l name fs = (Some e, l', fs') ->
     e = NotLoaded /\ loadedPlugins l !! name = None).
Proof.
  unfold UnloadPlugin, GetPlugin.
  destruct (loadedPlugins l !! name) as [loadedPlugin|] eqn:Hl.
  - split; [|split].
    + intros _. eexists _, _. split; [reflexivity|]. simpl.
      rewrite lookup_delete_eq. split; [done|].
      intros other Hne. by rewrite lookup_delete_ne.
    + discriminate.
    + intros e l' fs' [=].
  - split; [|split].
    + intros [x [=]].
    + done.
    + intros e l' fs' [= <- <- <-]. done.
Qed.

(** Unloading a running plugin whose process cannot be killed and whose
    directory cannot be removed. *)
Lemma UnloadPlugin_fails_only_when_absent_witness :
  exists l' fs',
    UnloadPlugin world_hostile loader_with_running_svc "svc" packaged = (None, l', fs') /\
    GetPlugin l' "svc" = (None, false) /\
    forall other, other <> "svc" ->
      loadedPlugins l' !! other = loadedPlugins loader_with_running_svc !! other.
Proof.
  apply (proj1 (UnloadPlugin_fails_only_when_absent world_hostile
                  loader_with_running_svc "svc" packaged)).
  vm_compute. eexists. reflexivity.
Defined.

(** *** The supervisor *)

(** C8, as worded, fails: the command is stored before it is started, so
    after a failed spawn the field is no longer nil. *)
Lemma Initialize_failure_changes_cmd :
  ¬ spawn_failure_keeps_field world_hostile fresh_svc.
Proof.
  intros H. destruct H as [_ Hcmd]; [exact I | reflexivity | discriminate Hcmd].
Qed.

(** C8, amended.  When the process of a plugin in state [Extracted]
    cannot be started, [Initialize] returns the spawn error and the
    plugin is still in state [Extracted]: no process handle is stored,
    [Health] answers "stopped" as before and [stop] has nothing to kill;
    path and metadata are as before, and the field [cmd] now holds the
    command that did not start. *)
Theorem Initialize_spawn_failure (w : world) (p : VKPPlugin) :
  Extracted p ->
  start w (execPath p) ["--mode=gateway"] = None ->
  let r := Initialize w p in
  r.1 = Some SpawnFailed /\
  Extracted r.2 /\
  Health w r.2 = Health w p /\ Health w r.2 = (Stopped, None) /\
  stop w r.2 = None /\
  execPath r.2 = execPath p /\ metadata r.2 = metadata p /\
  cmd r.2 = Some {| cmd_path := execPath p; cmd_args := ["--mode=gateway"];
                    Process := None |}.
Proof.
  intros Hex Hstart. cbv zeta. unfold Initialize. simpl. rewrite Hstart. simpl.
  repeat split.
  unfold Health. unfold Extracted in Hex.
  destruct (cmd p) as [c|]; [|done]. simpl. by rewrite Hex.
Qed.

(** The freshly loaded supervisor in a world where nothing starts. *)
Lemma Initialize_spawn_failure_witness :
  let r := Initialize world_hostile fresh_svc in
  r.1 = Some SpawnFailed /\
  Extracted r.2 /\
  Health world_hostile r.2 = Health world_hostile fresh_svc /\
  Health world_hostile r.2 = (Stopped, None) /\
  stop world_hostile r.2 = None /\
  execPath r.2 = execPath fresh_svc /\ metadata r.2 = metadata fresh_svc /\
  cmd r.2 = Some {| cmd_path := execPath fresh_svc;
                    cmd_args := ["--mode=gateway"]; Process := None |}.
Proof. exact (Initialize_spawn_failure world_hostile fresh_svc I eq_refl). Defined.

(** When the process starts, its handle is stored. *)
Lemma Initialize_started (w : world) (p : VKPPlugin) (pid : Z) :
  start w (execPath p) ["--mode=gateway"] = Some pid ->
  (Initialize w p).1 = None /\ ¬ Extracted (Initialize w p).2.
Proof.
  intros Hstart. unfold Initialize. simpl. rewrite Hstart. simpl.
  split; [done|]. unfold Extracted. simpl. discriminate.
Qed.

(** *** Loading *)

Lemma loadVKPPlugin_registers json_Unmarshal w l path fs p l' fs' :
  loadVKPPlugin json_Unmarshal w l path fs = (Ok p, l', fs') ->
  exists extractDir,
    l' = set_loaded l
           (<[Plugin_GetName p :=
                {| lp_Plugin := p; lp_Path := path; ExtractDir := extractDir |}]>
              (loadedPlugins l)).
Proof.
  unfold loadVKPPlugin. intros H.
  cases. by eexists.
Qed.

Lemma loadGoPlugin_registers w l path fs p l' fs' :
  loadGoPlugin w l path fs = (Ok p, l', fs') ->
  exists extractDir,
    l' = set_loaded l
           (<[Plugin_GetName p :=
                {| lp_Plugin := p; lp_Path := path; ExtractDir := extractDir |}]>
              (loadedPlugins l)).
Proof.
  unfold loadGoPlugin. intros H.
  cases. by eexists.
Qed.

Lemma LoadPlugin_registers json_Unmarshal w l path fs p l' fs' :
  LoadPlugin json_Unmarshal w l path fs = (Ok p, l', fs') ->
  exists extractDir,
    l' = set_loaded l
           (<[Plugin_GetName p :=
                {| lp_Plugin := p; lp_Path := path; ExtractDir := extractDir |}]>
              (loadedPlugins l)).
Proof.
  unfold LoadPlugin. intros H.
  repeat (case_match; simplify_eq);
    eauto using loadVKPPlugin_registers, loadGoPlugin_registers.
Qed.

(** What [LoadPlugin] returns does not depend on what is loaded. *)
Lemma LoadPlugin_ignores_loaded json_Unmarshal w l entries path fs :
  (LoadPlugin json_Unmarshal w (set_loaded l entries) path fs).1.1 =
  (LoadPlugin json_Unmarshal w l path fs).1.1.
Proof.
  unfold LoadPlugin, loadVKPPlugin, loadGoPlugin. simpl.
  repeat (case_match; simplify_eq; simpl in * ); try done; try congruence.
Qed.

(** C6, as worded, fails: with [svc] loaded from version 1.0.0, loading
    version 1.0.1, whose metadata name is [svc] too, succeeds. *)
Lemma LoadPlugin_accepts_taken_name :
  ¬ conflict_refused name_Unmarshal world_ok loaded_once.1
      "vpks/svc_linux_amd64_v1.0.1.vkp" loaded_once.2.
Proof.
  intros H. destruct (H (metadata_named "svc")) as (e & l' & fs' & Hload & _).
  - vm_compute. reflexivity.
  - vm_compute. eexists. reflexivity.
  - assert ((LoadPlugin name_Unmarshal world_ok loaded_once.1
               "vpks/svc_linux_amd64_v1.0.1.vkp" loaded_once.2).1.1
            = Err e) as Hres by (by rewrite Hload).
    vm_compute in Hres. discriminate Hres.
Qed.

(** The entry of [svc] then belongs to the newer package. *)
Example LoadPlugin_replaces_entry :
  let r := LoadPlugin name_Unmarshal world_ok loaded_once.1
             "vpks/svc_linux_amd64_v1.0.1.vkp" loaded_once.2 in
  lp_Path <$> loadedPlugins loaded_once.1 !! "svc"
    = Some "vpks/svc_linux_amd64_v1.0.0.vkp" /\
  lp_Path <$> loadedPlugins r.1.2 !! "svc"
    = Some "vpks/svc_linux_amd64_v1.0.1.vkp".
Proof. split; vm_compute; reflexivity. Qed.

(** C6, amended.  When a load succeeds the plugin is registered in the
    loader's map under its metadata name, in place of whatever entry had
    that name, and the other entries are as before; the loader has no
    name-conflict check: what [LoadPlugin] returns is the same whatever
    the map holds. *)
Theorem LoadPlugin_registers_under_name
    (json_Unmarshal : string -> option PluginMetadata) (w : world) (l : VKPLoader)
    (path : string) (fs : gmap string file) :
  (forall p l' fs',
     LoadPlugin json_Unmarshal w l path fs = (Ok p, l', fs') ->
     (exists loadedPlugin,
        loadedPlugins l' !! Plugin_GetName p = Some loadedPlugin /\
        lp_Plugin loadedPlugin = p /\ lp_Path loadedPlugin = path) /\
     (forall other, other <> Plugin_GetName p ->
        loadedPlugins l' !! other = loadedPlugins l !! other)) /\
  (forall entries,
     (LoadPlugin json_Unmarshal w (set_loaded l entries) path fs).1.1 =
     (LoadPlugin json_Unmarshal w l path fs).1.1).
Proof.
  split.
  - intros p l' fs' Hload.
    apply LoadPlugin_registers in Hload as [extractDir ->]. simpl. split.
    + eexists. rewrite lookup_insert_eq. done.
    + intros other Hne. by rewrite lookup_insert_ne.
  - intros entries. apply LoadPlugin_ignores_loaded.
Qed.

(** The first load of [svc] into an empty loader. *)
Lemma LoadPlugin_registers_under_name_witness :
  (exists loadedPlugin,
     loadedPlugins loaded_once.1 !! "svc" = Some loadedPlugin /\
     lp_Plugin loadedPlugin =
       VKP {| execPath := "plugins/temp/svc_linux_amd64_v1.0.0.vkp_extracted/plugin";
              metadata := Some (metadata_named "svc"); cmd := None |} /\
     lp_Path loadedPlugin = "vpks/svc_linux_amd64_v1.0.0.vkp") /\
  (forall other, other <> "svc" ->
     loadedPlugins loaded_once.1 !! other = loadedPlugins (NewVKPLoader "plugins") !! other).
Proof.
  apply (proj1 (LoadPlugin_registers_under_name name_Unmarshal world_ok
                  (NewVKPLoader "plugins") "vpks/svc_linux_amd64_v1.0.0.vkp"
                  two_packages)
           (VKP {| execPath := "plugins/temp/svc_linux_amd64_v1.0.0.vkp_extracted/plugin";
                   metadata := Some (metadata_named "svc"); cmd := None |})
           loaded_once.1 loaded_once.2).
  vm_compute. reflexivity.
Defined.

(** *** Packaging and loading *)

Lemma append_inj_r (s a b : string) : (s ++ a = s ++ b)%string -> a = b.
Proof. induction s as [|c s IH]; simpl; [done|]. intros [= H]. auto. Qed.

Lemma Join_inj dir a b : Filepath.Join dir a = Filepath.Join dir b -> a = b.
Proof.
  unfold Filepath.Join. intros H. apply append_inj_r in H.
  simpl in H. by injection H.
Qed.

Lemma to_entry_of_entry entries : map to_entry (map of_entry entries) = entries.
Proof.
  induction entries as [|[name type body] rest IH]; simpl; [done|].
  by rewrite IH.
Qed.

(** Extraction writes only the files the archive names. *)
Lemma extract_entries_other w extractDir entries fs name :
  Forall (fun e => entry_name e <> name) entries ->
  (extract_entries w extractDir entries fs).2 !! Filepath.Join extractDir name
  = fs !! Filepath.Join extractDir name.
Proof.
  intros Hnames. revert fs.
  induction Hnames as [|e rest Hne _ IH]; intros fs; simpl; [done|].
  destruct (entry_type e); try apply IH.
  repeat case_match; simpl; try done.
  rewrite IH. apply lookup_insert_ne. intros Heq. by apply Join_inj in Heq.
Qed.

Lemma add_includes_names fs files name :
  Forall (fun f => Filepath.Base f <> name) files ->
  Forall (fun e => entry_name e <> name) (add_includes fs files).
Proof.
  induction 1 as [|f rest Hf _ IH]; simpl; [constructor|].
  unfold addFileToTar. destruct (fs !! f); simpl; [constructor|]; done.
Qed.

(** What the packager writes: an archive of [plugin], [metadata.json]
    and the extra files, and no [plugin.json] unless an extra file has
    that name. *)
Lemma createVKPPackage_entries json_MarshalIndent w config binaryPath tempDir fs fs1 :
  createVKPPackage json_MarshalIndent w config binaryPath tempDir fs = (None, fs1) ->
  Forall (fun f => Filepath.Base f <> "plugin.json") (IncludeFiles config) ->
  exists entries,
    fs1 !! OutputPath config
      = Some {| data := Archive (map of_entry entries); mode := 420 |} /\
    Forall (fun e => entry_name e <> "plugin.json") entries.
Proof.
  unfold createVKPPackage, createMetadataFile, addFileToTar. intros H Hinc.
  cases.
  eexists. split; [apply lookup_insert_eq|].
  repeat constructor; simpl; try discriminate.
  by apply add_includes_names.
Qed.

(** C5, on the code: the packager stores the metadata in the member
    [metadata.json] and the loader reads the member [plugin.json].  So a
    package written by [createVKPPackage] (no extra file named
    [plugin.json]), loaded into an extraction directory that holds no
    [plugin.json] yet, does not load, whatever the metadata and whatever
    the JSON encoder and decoder: no metadata comes back. *)
Theorem packaged_archive_does_not_load
    (json_Unmarshal : string -> option PluginMetadata)
    (json_MarshalIndent : PluginMetadata -> string)
    (wp wl : world) (config : PackageConfig) (binaryPath tempDir : string)
    (fs fs1 : gmap string file) (l : VKPLoader) :
  createVKPPackage json_MarshalIndent wp config binaryPath tempDir fs = (None, fs1) ->
  Forall (fun f => Filepath.Base f <> "plugin.json") (IncludeFiles config) ->
  Filepath.Ext (OutputPath config) = ".vkp" ->
  fs1 !! Filepath.Join
           (Filepath.Join (Filepath.Join (pluginDir l) "temp")
              (Filepath.Base (OutputPath config) ++ "_extracted"))
           "plugin.json" = None ->
  exists e fs2,
    LoadPlugin json_Unmarshal wl l (OutputPath config) fs1 = (Err e, l, fs2).
Proof.
  intros Hpack Hinc Hext Hfresh.
  destruct (createVKPPackage_entries _ _ _ _ _ _ _ Hpack Hinc)
    as (entries & Hout & Hnames).
  unfold LoadPlugin. rewrite Hout, Hext. simpl.
  unfold loadVKPPlugin.
  destruct (mkdir_fails wl _); [by eexists _, _|].
  unfold extractVKP. rewrite Hout. simpl. rewrite to_entry_of_entry.
  destruct (extract_entries wl _ entries fs1) as [[e|] fs2] eqn:Hex;
    [by eexists _, _|].
  unfold readPluginMetadata.
  replace fs2 with (extract_entries wl
    (Filepath.Join (Filepath.Join (pluginDir l) "temp")
       (Filepath.Base (OutputPath config) ++ "_extracted")) entries fs1).2
    by (by rewrite Hex).
  rewrite (extract_entries_other _ _ _ _ _ Hnames), Hfresh.
  by eexists _, _.
Qed.

(** The package written for [svc] and loaded into a fresh loader. *)
Lemma packaged_archive_does_not_load_witness :
  exists e fs2,
    LoadPlugin name_Unmarshal world_ok (NewVKPLoader "plugins") "out/svc.vkp" packaged
    = (Err e, NewVKPLoader "plugins", fs2).
Proof.
  apply (packaged_archive_does_not_load name_Unmarshal name_Marshal
           world_ok world_ok svc_config "tmp/svc" "tmp" built packaged
           (NewVKPLoader "plugins")).
  - vm_compute. reflexivity.
  - constructor.
  - reflexivity.
  - vm_compute. reflexivity.
Defined.

(** The error is the one of [readPluginMetadata], and the members of the
    package are [plugin] and [metadata.json]. *)
Example packaged_archive_load_error :
  (LoadPlugin name_Unmarshal world_ok (NewVKPLoader "plugins") "out/svc.vkp"
     packaged).1.1 = Err MetadataFailed /\
  data <$> packaged !! "out/svc.vkp"
    = Some (Archive [("plugin", TypeReg, Bytes "ELF");
                     ("metadata.json", TypeReg, Bytes "svc")]).
Proof. split; vm_compute; reflexivity. Qed.

(** With the member [plugin.json] in it, as the build script of the
    modules writes it, the package loads. *)
Example script_package_loads :
  (LoadPlugin name_Unmarshal world_ok (NewVKPLoader "plugins")
     "vpks/svc_linux_amd64_v1.0.0.vkp" two_packages).1.1
  = Ok (VKP {| execPath := "plugins/temp/svc_linux_amd64_v1.0.0.vkp_extracted/plugin";
               metadata := Some (metadata_named "svc"); cmd := None |}).
Proof. vm_compute. reflexivity. Qed.

End PluginFacts.

(** ** The rate limiter *)

Module RateLimitFacts.

Import RateLimit.

Open Scope Z_scope.

Lemma wrap64_small z : min_int <= z <= max_int -> wrap64 z = z.
Proof.
  unfold wrap64, min_int, max_int. intros Hz.
  change (2 ^ 63) with 9223372036854775808 in *.
  change (2 ^ 64) with 18446744073709551616.
  rewrite Z.mod_small; lia.
Qed.

(** *** The in-memory backend, call by call *)

Section InMemory.

Import Memory.

Lemma record_of_prune m now key :
  record_of (prune m now key) key =
  filter (fun req => After req (windowStart_of m now) = true) (record_of m key).
Proof.
  unfold prune, record_of.
  destruct (requests m !! key) as [reqs|] eqn:Hk; simpl.
  - by rewrite lookup_insert_eq.
  - by rewrite Hk.
Qed.

Lemma requests_prune_other m now key k :
  k <> key -> requests (prune m now key) !! k = requests m !! k.
Proof.
  intros Hne. unfold prune.
  destruct (requests m !! key); simpl; [|done]. by rewrite lookup_insert_ne.
Qed.

Lemma limit_prune m now key : limit (prune m now key) = limit m.
Proof. unfold prune. by destruct (requests m !! key). Qed.

Lemma window_prune m now key : window (prune m now key) = window m.
Proof. unfold prune. by destruct (requests m !! key). Qed.

Lemma record_of_appended now key k m :
  record_of (Nat.iter k (append_now now key) m) key
  = (record_of m key ++ repeat now k)%list.
Proof.
  induction k as [|k IH]; simpl.
  - by rewrite app_nil_r.
  - unfold append_now at 1, record_of at 1. simpl.
    rewrite lookup_insert_eq. simpl. rewrite IH, <- app_assoc. f_equal.
    symmetry. apply repeat_cons.
Qed.

Lemma requests_appended_other now key k m other :
  other <> key ->
  requests (Nat.iter k (append_now now key) m) !! other = requests m !! other.
Proof.
  intros Hne. induction k as [|k IH]; simpl; [done|].
  by rewrite lookup_insert_ne.
Qed.

Lemma limit_appended now key k m :
  limit (Nat.iter k (append_now now key) m) = limit m.
Proof. induction k as [|k IH]; simpl; done. Qed.

Lemma window_appended now key k m :
  window (Nat.iter k (append_now now key) m) = window m.
Proof. induction k as [|k IH]; simpl; done. Qed.

(** [AllowN], when the count stays within the range of [int]. *)
Lemma AllowN_in_range m now key n :
  let remaining :=
    filter (fun req => After req (windowStart_of m now) = true) (record_of m key) in
  let c := Z.of_nat (length remaining) in
  min_int <= n -> c + Z.max 0 n <= max_int ->
  AllowN m now key n =
    if limit m <? c + n then Ok ((false, None), prune m now key)
    else Ok ((true, None),
             Nat.iter (Z.to_nat n) (append_now now key) (prune m now key)).
Proof.
  cbv zeta. intros Hn Hc. unfold AllowN.
  rewrite record_of_prune, limit_prune.
  set (c := Z.of_nat (length _)) in *.
  assert (0 <= c) by lia.
  rewrite wrap64_small by (unfold min_int, max_int in *; lia).
  destruct (limit m <? c + n); [done|].
  by rewrite (proj2 (Z.ltb_ge _ _)) by lia.
Qed.

Lemma bounded_prune L m now key : bounded L m -> bounded L (prune m now key).
Proof.
  intros [HL Hlen]. split; [by rewrite limit_prune|].
  intros k. destruct (decide (k = key)) as [->|Hne].
  - rewrite record_of_prune.
    pose proof (length_filter (fun req => After req (windowStart_of m now) = true)
                  (record_of m key)).
    specialize (Hlen key). lia.
  - unfold record_of. rewrite requests_prune_other by done.
    apply (Hlen k).
Qed.

Lemma bounded_AllowN L m now key n r m' :
  bounded L m -> AllowN m now key n = Ok (r, m') -> bounded L m'.
Proof.
  intros Hb. unfold AllowN.
  pose proof (bounded_prune L m now key Hb) as [HL Hlen].
  set (m1 := prune m now key) in *.
  set (c := Z.of_nat (length (record_of m1 key))).
  destruct (limit m1 <? wrap64 (c + n)) eqn:Hcheck.
  - intros [= <- <-]. by split.
  - destruct (max_int <? c + Z.max 0 n) eqn:Hcap; [discriminate|].
    intros [= <- <-]. apply Z.ltb_ge in Hcheck, Hcap.
    split; [by rewrite limit_appended|].
    intros k. destruct (decide (k = key)) as [->|Hne].
    + rewrite record_of_appended, length_app, repeat_length.
      specialize (Hlen key). fold c in Hlen.
      destruct (Z.le_gt_cases n 0) as [Hn|Hn].
      * replace (Z.to_nat n) with 0%nat by lia. lia.
      * rewrite wrap64_small in Hcheck by (unfold min_int, max_int in *; lia).
        lia.
    + unfold record_of. rewrite requests_appended_other by done.
      apply (Hlen k).
Qed.

Lemma bounded_after_call L m now c m' :
  bounded L m -> after_call m now c = Some m' -> bounded L m'.
Proof.
  intros Hb. destruct c as [key|key n|key|key]; simpl.
  - unfold Allow. destruct (AllowN m now key 1) as [[r m1]| |] eqn:Hcall;
      intros [= <-]. by eapply bounded_AllowN.
  - destruct (AllowN m now key n) as [[r m1]| |] eqn:Hcall;
      intros [= <-]. by eapply bounded_AllowN.
  - intros [= <-]. destruct Hb as [HL Hlen]. split; [done|].
    intros k. unfold record_of. simpl.
    destruct (decide (k = key)) as [->|Hne].
    + rewrite lookup_delete_eq. simpl. lia.
    + rewrite lookup_delete_ne by done. apply (Hlen k).
  - intros [= <-]. unfold GetRemaining.
    pose proof (bounded_prune L m now key Hb) as Hp. unfold prune in Hp.
    by destruct (requests m !! key).
Qed.

Lemma reachable_bounded L W m : reachable L W m -> bounded L m.
Proof.
  induction 1 as [|m now c m' _ IH Hcall].
  - split; [done|]. intros key. unfold record_of. simpl.
    rewrite lookup_empty. simpl. lia.
  - by eapply bounded_after_call.
Qed.

Lemma reachable_run_calls L W calls m m' :
  reachable L W m -> run_calls m calls = Some m' -> reachable L W m'.
Proof.
  unfold run_calls. revert m.
  induction calls as [|[now c] calls IH]; simpl; intros m Hm.
  - by intros [= <-].
  - destruct (after_call m now c) as [m1|] eqn:Hc.
    + apply IH. by eapply reachable_call.
    + clear. intros H. exfalso. induction calls as [|x calls IH]; simpl in H; [discriminate|auto].
Qed.

End InMemory.

(** C3.  For a limit that is not negative: in every state that calls of
    Allow, AllowN, Reset and GetRemaining, made one at a time, lead to,
    and for every key and every instant, the recorded timestamps of the
    key that lie within the last [W] are at most [L]. *)
Theorem window_count_within_limit (L W : Z) (m : Memory.MemoryRateLimiter) :
  0 <= L ->
  Memory.reachable L W m ->
  forall key now, Z.of_nat (length (Memory.in_window m now key)) <= L.
Proof.
  intros HL Hr key now.
  destruct (reachable_bounded L W m Hr) as [_ Hlen].
  pose proof (length_filter (fun t => now - Memory.window m <= t <= now)
                (Memory.record_of m key)) as Hf.
  specialize (Hlen key). unfold Memory.in_window. lia.
Qed.

(** The limiter of the exhaustion scenario after its three calls. *)
Lemma window_count_within_limit_witness :
  0 <= 2 /\
  Memory.reachable 2 Memory.second Memory.exhausted_state /\
  Z.of_nat (length (Memory.in_window Memory.exhausted_state
                      (5 * Memory.second) "k")) <= 2.
Proof.
  assert (Memory.reachable 2 Memory.second Memory.exhausted_state) as Hr.
  { apply (reachable_run_calls 2 Memory.second
             (repeat (5 * Memory.second, Memory.CallAllow "k") 3)
             (Memory.NewMemoryRateLimiter 2 Memory.second));
      [apply Memory.reachable_new | vm_compute; reflexivity]. }
  split; [lia|]. split; [exact Hr|].
  apply (window_count_within_limit 2 Memory.second Memory.exhausted_state);
    [lia | exact Hr].
Defined.

(** Scenario "rate-limit exhaustion": yes, yes, no; and yes again 1.1
    seconds later. *)
Example exhaustion_scenario :
  let m0 := Memory.NewMemoryRateLimiter 2 Memory.second in
  let t := 5 * Memory.second in
  let asked k :=
    m ← Memory.run_calls m0 (repeat (t, Memory.CallAllow "k") k);
    Memory.answer (Memory.Allow m t "k") in
  asked 0%nat = Some (true, None) /\
  asked 1%nat = Some (true, None) /\
  asked 2%nat = Some (false, None) /\
  (m ← Memory.exhausted; Memory.answer (Memory.Allow m (t + 1100000000) "k"))
    = Some (true, None).
Proof. vm_compute. repeat split; reflexivity. Qed.

(** *** Eviction and decision of [AllowN] *)

(** C2, as worded, fails in both backends: a timestamp equal to
    [windowStart] is deleted, not kept.  With limit 1, window 10 and one
    request recorded at 90, [AllowN(k, 1)] at 100 is admitted. *)
Lemma AllowN_drops_timestamp_at_windowStart :
  ¬ Memory.AllowN_as_specified Memory.one_at_90 100 "k" 1 /\
  ¬ Redis.AllowN_as_specified Redis.one_per_ten Redis.db_at_90 100 "k" 1.
Proof.
  split.
  - intros (m' & Hcall & _). vm_compute in Hcall. discriminate Hcall.
  - unfold Redis.AllowN_as_specified. vm_compute. discriminate.
Qed.

Lemma members_after_ZREMRANGEBYSCORE db key lo hi :
  Redis.members_of (Redis.ZREMRANGEBYSCORE db key lo hi) key
  = filter (fun p : string * Z => ¬ (lo <= p.2 <= hi)) (Redis.members_of db key).
Proof.
  unfold Redis.ZREMRANGEBYSCORE, Redis.members_of.
  destruct (db !! key) as [z|] eqn:Hk.
  - case_bool_decide as He.
    + by rewrite lookup_delete_eq, He.
    + by rewrite lookup_insert_eq.
  - rewrite Hk. by rewrite map_filter_empty.
Qed.

Lemma ZREMRANGEBYSCORE_other db key lo hi k :
  k <> key -> Redis.ZREMRANGEBYSCORE db key lo hi !! k = db !! k.
Proof.
  intros Hne. unfold Redis.ZREMRANGEBYSCORE.
  destruct (db !! key) as [z|]; [|done].
  case_bool_decide; [by rewrite lookup_delete_ne | by rewrite lookup_insert_ne].
Qed.

(** C2, amended.  [AllowN(k, n)] first deletes the recorded timestamps of
    [k] that are not after [windowStart = now - W]: those strictly less
    and those equal to it (the remote backend: the scores from 0 to
    [windowStart], both included).  With [c] the count that remains and
    while [c + n] stays within the range of [int], it answers
    [(false, nil)] when [c + n > L], the record being what remained, and
    [(true, nil)] otherwise; the in-memory backend then holds what
    remained followed by [max n 0] timestamps [now].  Other keys are
    untouched.  When the remote store does not run the script the answer
    is [(false, err)] and nothing changes. *)
Theorem AllowN_evicts_then_decides :
  (forall (m : Memory.MemoryRateLimiter) (now : Z) (key : string) (n : Z),
     let windowStart := now - Memory.window m in
     let remaining := filter (fun t => windowStart < t) (Memory.record_of m key) in
     let c := Z.of_nat (length remaining) in
     min_int < Memory.window m <= max_int ->
     min_int <= n -> c + Z.max 0 n <= max_int ->
     exists m',
       Memory.AllowN m now key n
         = Ok ((negb (Memory.limit m <? c + n), None), m') /\
       Memory.limit m' = Memory.limit m /\
       Memory.window m' = Memory.window m /\
       (forall k, k <> key -> Memory.requests m' !! k = Memory.requests m !! k) /\
       Memory.record_of m' key
         = if Memory.limit m <? c + n then remaining
           else (remaining ++ repeat now (Z.to_nat (Z.max n 0)))%list) /\
  (forall (r : Redis.RedisRateLimiter) (db : gmap string Redis.zset) (now : Z)
          (key : string) (n : Z),
     let windowStart := now - Redis.window_seconds r in
     let remaining :=
       filter (fun p : string * Z => ¬ (0 <= p.2 <= windowStart))
              (Redis.members_of db (Redis.getKey r key)) in
     let c := Z.of_nat (size remaining) in
     let res := Redis.AllowN r true db now key n in
     min_int <= windowStart <= max_int ->
     res.1 = (negb (Redis.limit r <? c + n), None) /\
     (Redis.limit r < c + n ->
      Redis.members_of res.2 (Redis.getKey r key) = remaining /\
      forall k, k <> Redis.getKey r key -> res.2 !! k = db !! k)) /\
  (forall (r : Redis.RedisRateLimiter) (db : gmap string Redis.zset) (now : Z)
          (key : string) (n : Z),
     Redis.AllowN r false db now key n = ((false, Some EvalFailed), db)).
Proof.
  split; [|split; [|done]].
  - intros m now key n. cbv zeta. intros HW Hn Hc.
    assert (Memory.windowStart_of m now = now - Memory.window m) as Hws.
    { unfold Memory.windowStart_of.
      rewrite wrap64_small by (unfold min_int, max_int in *; lia). lia. }
    assert (filter (fun req => Memory.After req (Memory.windowStart_of m now) = true)
              (Memory.record_of m key)
            = filter (fun t => now - Memory.window m < t) (Memory.record_of m key))
      as Hfilter.
    { rewrite Hws. apply list_filter_iff. intros t. unfold Memory.After.
      apply Z.ltb_lt. }
    pose proof (AllowN_in_range m now key n) as Hcall. cbv zeta in Hcall.
    rewrite Hfilter in Hcall. rewrite Hcall by done. clear Hcall.
    destruct (Memory.limit m <? _) eqn:Hcheck; simpl.
    + eexists. split; [reflexivity|].
      rewrite limit_prune, window_prune, record_of_prune, Hfilter.
      repeat split. intros k Hne. by apply requests_prune_other.
    + eexists. split; [reflexivity|].
      rewrite limit_appended, window_appended, limit_prune, window_prune.
      rewrite record_of_appended, record_of_prune, Hfilter.
      repeat split.
      * intros k Hne. rewrite requests_appended_other by done.
        by apply requests_prune_other.
      * do 2 f_equal. lia.
  - intros r db now key n. cbv zeta. intros Hws.
    unfold Redis.AllowN, Redis.allow_script.
    rewrite wrap64_small by done.
    unfold Redis.ZCARD. rewrite members_after_ZREMRANGEBYSCORE.
    destruct (Redis.limit r <? _) eqn:Hcheck; simpl.
    + split; [done|]. intros _. split.
      * apply members_after_ZREMRANGEBYSCORE.
      * intros k Hne. by apply ZREMRANGEBYSCORE_other.
    + split; [done|]. apply Z.ltb_ge in Hcheck. lia.
Qed.

(** One request at 90, window 10, asked again at 100: admitted in both
    backends. *)
Lemma AllowN_evicts_then_decides_witness :
  (exists m',
     Memory.AllowN Memory.one_at_90 100 "k" 1 = Ok ((true, None), m') /\
     Memory.limit m' = 1 /\ Memory.window m' = 10 /\
     (forall k, k <> "k" ->
        Memory.requests m' !! k = Memory.requests Memory.one_at_90 !! k) /\
     Memory.record_of m' "k" = [100]) /\
  (Redis.AllowN Redis.one_per_ten true Redis.db_at_90 100 "k" 1).1 = (true, None).
Proof.
  split.
  - exact (proj1 AllowN_evicts_then_decides Memory.one_at_90 100 "k" 1
             ltac:(vm_compute; split; [reflexivity | discriminate])
             ltac:(vm_compute; discriminate)
             ltac:(vm_compute; discriminate)).
  - exact (proj1 (proj1 (proj2 AllowN_evicts_then_decides) Redis.one_per_ten
                    Redis.db_at_90 100 "k" 1
                    ltac:(vm_compute; split; discriminate))).
Defined.

(** In the remote backend two calls within one second write the same
    member [now:1], so the second leaves the count at one. *)
Example remote_calls_in_one_second_collapse :
  let r := {| Redis.limit := 5; Redis.window_seconds := 10; Redis.prefix := "rl" |} in
  let db1 := (Redis.AllowN r true ∅ 100 "k" 1).2 in
  let res := Redis.AllowN r true db1 100 "k" 1 in
  res.1 = (true, None) /\ Redis.scores_of res.2 "rl:k" = [100].
Proof. vm_compute. split; reflexivity. Qed.

(** *** Calls that overlap *)

Section Overlap.

Import Memory Interleaving.

(** Run alone, the three blocks are [AllowN]. *)
Lemma alone_is_AllowN m key n now :
  match AllowN m now key n with
  | Ok ((allowed, _), m') =>
      alone m (call_AllowN key n now)
      = (m', [at_pc (call_AllowN key n now) (Returned allowed)])
  | _ => answers (alone m (call_AllowN key n now)) = [Aborted]
  end.
Proof.
  unfold alone, run, AllowN. cbn [fold_left].
  unfold sched_step at 3. cbn.
  unfold sched_step at 2. cbn.
  destruct (limit (prune m now key) <? _); cbn; [done|].
  destruct (max_int <? _); done.
Qed.

(** C9, on the code.  Two calls of [Allow] for one key whose blocks
    alternate are both admitted by a limiter of one permit, and two
    timestamps are recorded; made one after the other, in either order,
    only the first is admitted. *)
Theorem overlapping_calls_both_admitted :
  let overlapped := run [0; 1; 0; 1; 0; 1]%nat two_calls in
  answers overlapped = [Returned true; Returned true] /\
  record_of overlapped.1 "k" = [5000000000; 5000000000] /\
  limit overlapped.1 = 1 /\
  answers (run [0; 0; 0; 1; 1; 1]%nat two_calls) = [Returned true; Returned false] /\
  answers (run [1; 1; 1; 0; 0; 0]%nat two_calls) = [Returned false; Returned true].
Proof. vm_compute. repeat split; reflexivity. Qed.

End Overlap.

End RateLimitFacts.

(** ** More on strings *)

Module StringsFacts.

Import RegexpFacts.

Lemma length_append (a b : string) :
  String.length (a ++ b) = (String.length a + String.length b)%nat.
Proof. induction a as [|c a IH]; [done|]. rewrite append_cons. simpl. by rewrite IH. Qed.

Lemma substring_all (a : string) : substring 0 (String.length a) a = a.
Proof. induction a as [|c a IH]; [done|]. simpl. by rewrite IH. Qed.

Lemma substring_prefix (a b : string) : substring 0 (String.length a) (a ++ b) = a.
Proof.
  induction a as [|c a IH].
  - rewrite append_nil_l. by destruct b.
  - rewrite append_cons. simpl. by rewrite IH.
Qed.

Lemma substring_suffix (a b : string) :
  substring (String.length a) (String.length b) (a ++ b) = b.
Proof.
  induction a as [|c a IH].
  - rewrite append_nil_l. apply substring_all.
  - rewrite append_cons. simpl. apply IH.
Qed.

Lemma HasSuffix_append (a suffix : string) : Strings.HasSuffix (a ++ suffix) suffix = true.
Proof.
  unfold Strings.HasSuffix. rewrite length_append.
  rewrite (proj2 (Nat.leb_le _ _)) by lia. simpl.
  replace (String.length a + String.length suffix - String.length suffix)%nat
    with (String.length a) by lia.
  rewrite substring_suffix. apply String.eqb_refl.
Qed.

Lemma TrimSuffix_append (a suffix : string) : Strings.TrimSuffix (a ++ suffix) suffix = a.
Proof.
  unfold Strings.TrimSuffix. rewrite HasSuffix_append, length_append.
  replace (String.length a + String.length suffix - String.length suffix)%nat
    with (String.length a) by lia.
  apply substring_prefix.
Qed.

(** A string with the suffix is its trimmed part followed by it. *)
Lemma HasSuffix_split (s suffix : string) :
  Strings.HasSuffix s suffix = true ->
  s = Strings.TrimSuffix s suffix ++ suffix.
Proof.
  intros H. unfold Strings.TrimSuffix. rewrite H.
  unfold Strings.HasSuffix in H. apply andb_true_iff in H as [Hlen Heq].
  apply Nat.leb_le in Hlen. apply String.eqb_eq in Heq.
  revert Hlen Heq. generalize (String.length suffix) as k. intros k.
  revert k. induction s as [|c s IH]; intros k Hlen Heq; simpl in *.
  - assert (k = 0)%nat as -> by lia. simpl in *. by subst.
  - destruct (decide (k = S (String.length s))) as [->|Hne].
    + rewrite Nat.sub_diag in *. simpl in Heq.
      rewrite substring_all in Heq. by subst.
    + destruct (S (String.length s) - k)%nat as [|d] eqn:Hd; [lia|].
      assert (d = String.length s - k)%nat as -> by lia.
      simpl in Heq. rewrite append_cons. f_equal. apply IH; [lia|done].
Qed.

(** [Split] never returns the empty list. *)
Lemma Split_nonempty (s : string) (sep : ascii) : Strings.Split s sep <> [].
Proof. destruct s as [|c s]; simpl; [done|]. by repeat case_match. Qed.

(** Cutting at a separator: the parts of both sides, one after the
    other. *)
Lemma Split_append (a b : string) (sep : ascii) :
  Strings.Split (a ++ String sep b) sep
  = (Strings.Split a sep ++ Strings.Split b sep)%list.
Proof.
  induction a as [|c a IH].
  - rewrite append_nil_l. simpl. by rewrite Ascii.eqb_refl.
  - rewrite append_cons. simpl. destruct (Ascii.eqb c sep); rewrite IH; [done|].
    pose proof (Split_nonempty a sep).
    by destruct (Strings.Split a sep).
Qed.

Lemma free_of_append sep a b :
  Strings.free_of sep (a ++ b) = Strings.free_of sep a && Strings.free_of sep b.
Proof.
  induction a as [|c a IH]; [done|]. rewrite append_cons. simpl.
  by rewrite IH, andb_assoc.
Qed.

(** A prefix without separator stays in the first part. *)
Lemma Split_free_prefix (a b : string) (sep : ascii) :
  Strings.free_of sep a = true ->
  Strings.Split (a ++ b) sep
  = (a ++ hd EmptyString (Strings.Split b sep)) :: tl (Strings.Split b sep).
Proof.
  induction a as [|c a IH]; intros Hfree.
  - rewrite !append_nil_l. pose proof (Split_nonempty b sep).
    by destruct (Strings.Split b sep).
  - simpl in Hfree. apply andb_true_iff in Hfree as [Hc Ha].
    rewrite !append_cons. simpl.
    apply negb_true_iff in Hc. rewrite Hc, (IH Ha). done.
Qed.

Lemma Split_free (a : string) (sep : ascii) :
  Strings.free_of sep a = true -> Strings.Split a sep = [a].
Proof.
  intros H. rewrite <- (append_nil_r a) at 1.
  rewrite (Split_free_prefix _ _ _ H). simpl. by rewrite append_nil_r.
Qed.

End StringsFacts.

(** ** Names in the recommended format *)

Module FormatFacts.

Import Regexp RegexpFacts StringsFacts Installer.

Lemma matches_star_class p s : matches (Star (Class p)) s <-> all_chars p s = true.
Proof.
  split.
  - intros H. remember (Star (Class p)) as r eqn:Hr.
    induction H as [| | | | | |r s1 s2 H1 _ H2 IH2]; try discriminate; [done|].
    injection Hr as ->. inversion H1 as [|? c Hc| | | | |]; subst.
    rewrite append_cons, append_nil_l. simpl. rewrite Hc. by apply IH2.
  - induction s as [|c s IH]; simpl; [constructor|].
    intros [Hc Hs]%andb_true_iff.
    rewrite <- (append_nil_l s), <- append_cons.
    constructor; [by constructor | by apply IH].
Qed.

Lemma matches_plus_class p s :
  matches (Plus (Class p)) s <-> s <> "" /\ all_chars p s = true.
Proof.
  unfold Plus. split.
  - inversion 1 as [| |? ? s1 s2 H1 H2| | | |]; subst.
    inversion H1 as [|? c Hc| | | | |]; subst. rewrite append_cons, append_nil_l.
    split; [discriminate|]. simpl.
    apply matches_star_class in H2. by rewrite Hc, H2.
  - intros [Hne Hd]. destruct s as [|c s]; [done|]. simpl in Hd.
    apply andb_true_iff in Hd as [Hc Hs].
    rewrite <- (append_nil_l s), <- append_cons.
    constructor; [by constructor | by apply matches_star_class].
Qed.

(** A class without the separator gives words without it. *)
Lemma all_chars_free p sep s :
  p sep = false -> all_chars p s = true -> Strings.free_of sep s = true.
Proof.
  intros Hp. induction s as [|c s IH]; simpl; [done|].
  intros [Hc Hs]%andb_true_iff. rewrite (IH Hs), andb_true_r.
  apply negb_true_iff, Ascii.eqb_neq. intros ->. congruence.
Qed.

Lemma all_digits_all_chars s : all_digits s = all_chars (in_range "0" "9") s.
Proof. induction s as [|c s IH]; simpl; congruence. Qed.

Lemma number_free s : number s -> Strings.free_of "_" s = true.
Proof.
  intros [_ H]. rewrite all_digits_all_chars in H.
  by apply (all_chars_free (in_range "0" "9")).
Qed.

(** A word of the version pattern has no underscore. *)
Lemma version_free ver : matches version_re ver -> Strings.free_of "_" ver = true.
Proof.
  unfold version_re. intros Hm.
  apply matches_seq_iff in Hm as (v & p1 & -> & Hv & Hm).
  apply matches_seq_iff in Hm as (major & p2 & -> & Hmajor & Hm).
  apply matches_seq_iff in Hm as (d1 & p3 & -> & Hd1 & Hm).
  apply matches_seq_iff in Hm as (minor & p4 & -> & Hminor & Hm).
  apply matches_seq_iff in Hm as (d2 & patch & -> & Hd2 & Hpatch).
  apply matches_chr in Hd1 as ->, Hd2 as ->.
  apply matches_plus_digit in Hmajor, Hminor, Hpatch.
  rewrite !free_of_append, !(number_free _ Hmajor), !(number_free _ Hminor),
    !(number_free _ Hpatch).
  apply matches_opt in Hv as [->|Hv]; [done|].
  by apply matches_chr in Hv as ->.
Qed.

(** A match of the rightmost kind exists as soon as any part matches. *)
Lemma scan_finds parts k i :
  (i < k)%nat -> is_version (nth i parts EmptyString) = true ->
  exists vi, scan parts k = Some vi /\ (i <= vi < k)%nat.
Proof.
  intros Hi Hv. destruct (scan parts k) as [vi|] eqn:Hs.
  - exists vi. split; [done|].
    apply InstallerFacts.scan_Some in Hs as (Hvi & _ & Hlast).
    split; [|done]. destruct (Nat.le_gt_cases i vi) as [|Hgt]; [done|].
    rewrite (Hlast i) in Hv by lia. discriminate.
  - rewrite (InstallerFacts.scan_None _ _ Hs i Hi) in Hv. discriminate.
Qed.

(** X1.  A file name in the recommended format, for which
    [validatePluginFilename] logs no warning, passes the suffix check and
    is always parsed by [parsePluginInfo]: no error, no panic; its service
    is the token before the first underscore. *)
Theorem recommended_name_parses (filename : string) :
  format_warning filename = false ->
  Strings.HasSuffix filename ".vkp" = true /\
  exists info,
    parsePluginInfo filename = Ok info /\
    ServiceName info = leading_part filename /\
    ServiceName info <> "" /\
    Filename info = filename.
Proof.
  unfold format_warning. intros Hm. apply negb_false_iff in Hm.
  apply match_whole_correct in Hm. unfold recommended_re in Hm.
  apply matches_seq_iff in Hm as (svc & r1 & -> & Hsvc & Hm).
  apply matches_seq_iff in Hm as (u1 & r2 & -> & Hu1 & Hm).
  apply matches_seq_iff in Hm as (plat & r3 & -> & Hplat & Hm).
  apply matches_seq_iff in Hm as (u2 & r4 & -> & Hu2 & Hm).
  apply matches_seq_iff in Hm as (ver & r5 & -> & Hver & Hm).
  apply matches_seq_iff in Hm as (rest & r6 & -> & Hrest & Hm).
  apply matches_seq_iff in Hm as (dot & r7 & -> & Hdot & Hm).
  apply matches_seq_iff in Hm as (cv & r8 & -> & Hcv & Hm).
  apply matches_seq_iff in Hm as (ck & cp & -> & Hck & Hcp).
  apply matches_chr in Hu1 as ->, Hu2 as ->, Hdot as ->, Hcv as ->, Hck as ->, Hcp as ->.
  apply matches_plus_class in Hsvc as [Hsvc_ne Hsvc], Hplat as [Hplat_ne Hplat].
  assert (Strings.free_of "_" svc = true) as Hsvc_free
    by (by apply (all_chars_free service_char)).
  pose proof (version_free _ Hver) as Hver_free.
  set (body := svc ++ String "_" (plat ++ String "_" (ver ++ rest))).
  assert (svc ++ "_" ++ plat ++ "_" ++ ver ++ rest ++ "." ++ "v" ++ "k" ++ "p"
          = body ++ ".vkp") as ->.
  { unfold body. repeat (rewrite append_assoc || rewrite append_cons). reflexivity. }
  split; [apply HasSuffix_append|].
  assert (leading_part (body ++ ".vkp") = svc) as Hlead.
  { unfold leading_part, body. rewrite append_assoc, append_cons.
    rewrite Split_append, (Split_free _ _ Hsvc_free). done. }
  rewrite Hlead.
  unfold parsePluginInfo. rewrite TrimSuffix_append.
  set (P := Strings.Split plat "_").
  set (vhead := ver ++ hd EmptyString (Strings.Split rest "_")).
  set (T := tl (Strings.Split rest "_")).
  assert (Strings.Split body "_" = svc :: (P ++ vhead :: T)%list) as ->.
  { unfold body. rewrite Split_append, (Split_free _ _ Hsvc_free).
    rewrite Split_append, (Split_free_prefix _ _ _ Hver_free). done. }
  assert (is_version vhead = true) as Hvhead.
  { apply match_prefix_correct. by exists ver, (hd EmptyString (Strings.Split rest "_")). }
  set (parts := svc :: (P ++ vhead :: T)%list).
  assert (length parts = S (length P + S (length T))) as Hlen.
  { unfold parts. simpl. by rewrite length_app. }
  assert (nth (S (length P)) parts EmptyString = vhead) as Hnth.
  { unfold parts. simpl. by rewrite nth_middle. }
  destruct (scan_finds parts (length parts) (S (length P))) as (vi & Hscan & Hvi);
    [lia | by rewrite Hnth |].
  assert (1 <= length P)%nat as HP.
  { pose proof (Split_nonempty plat "_") as Hne. fold P in Hne.
    destruct P; [done | simpl; lia]. }
  rewrite (proj2 (Nat.ltb_ge _ _)) by lia.
  rewrite Hscan. unfold slice.
  rewrite !(proj2 (Nat.leb_le _ _)) by lia. simpl.
  eexists. split; [reflexivity|]. simpl. done.
Qed.

(** The name of the first scenario of the specification. *)
Lemma recommended_name_parses_witness :
  Strings.HasSuffix "svc_linux_amd64_v1.0.0.vkp" ".vkp" = true /\
  exists info,
    parsePluginInfo "svc_linux_amd64_v1.0.0.vkp" = Ok info /\
    ServiceName info = leading_part "svc_linux_amd64_v1.0.0.vkp" /\
    ServiceName info <> "" /\
    Filename info = "svc_linux_amd64_v1.0.0.vkp".
Proof.
  apply (recommended_name_parses "svc_linux_amd64_v1.0.0.vkp").
  vm_compute. reflexivity.
Defined.

(** The converse fails: a name outside the format may parse, and a
    malformed one is only warned about. *)
Example unrecommended_names :
  format_warning "my.svc_linux_1.0.0.vkp" = true /\
  parsePluginInfo "my.svc_linux_1.0.0.vkp"
    = Ok {| ServiceName := "my.svc"; Platform := "linux"; Version := "1.0.0";
            Filename := "my.svc_linux_1.0.0.vkp" |} /\
  format_warning "malformed.vkp" = true /\
  validatePluginFilename "malformed.vkp" = None.
Proof. vm_compute. repeat split; reflexivity. Qed.

End FormatFacts.

(** ** More on the installer *)

Module InstallerMore.

Import Installer InstallerFacts.

(** *** What a call may remove and add *)

Lemma collect_sound serviceName plugins found e :
  collect serviceName plugins = Ok found ->
  e ∈ found ->
  exists f, f ∈ plugins /\ parsePluginInfo f = Ok e /\ ServiceName e = serviceName.
Proof.
  revert found. induction plugins as [|g rest IH]; intros found Hc He; simpl in Hc.
  - simplify_eq. by apply elem_of_nil in He.
  - destruct (parsePluginInfo g) as [pluginInfo|err|] eqn:Hp; [| |discriminate].
    + destruct (collect serviceName rest) as [servicePlugins| |]; try discriminate.
      destruct (String.eqb (ServiceName pluginInfo) serviceName) eqn:Hs; simplify_eq.
      * apply elem_of_cons in He as [->|He].
        -- exists g. apply String.eqb_eq in Hs. split; [apply list_elem_of_here|done].
        -- destruct (IH _ eq_refl He) as (f & Hf & H). exists f.
           split; [by apply list_elem_of_further|done].
      * destruct (IH _ eq_refl He) as (f & Hf & H). exists f.
        split; [by apply list_elem_of_further|done].
    + destruct (IH _ Hc He) as (f & Hf & H). exists f.
      split; [by apply list_elem_of_further|done].
Qed.

(** [collect] goes through exactly when no listed name makes the parser
    panic. *)
Lemma collect_Ok_iff serviceName plugins :
  (exists found, collect serviceName plugins = Ok found) <->
  (forall f, f ∈ plugins -> parsePluginInfo f <> Panic).
Proof.
  induction plugins as [|g rest IH]; simpl.
  - split; [intros _ f Hf; by apply elem_of_nil in Hf | by eexists].
  - split.
    + intros [found Hc] f Hf.
      destruct (parsePluginInfo g) as [pluginInfo|err|] eqn:Hp; [| |discriminate].
      * destruct (collect serviceName rest) as [servicePlugins| |]; try discriminate.
        apply elem_of_cons in Hf as [->|Hf]; [congruence|].
        apply (proj1 IH); [by eexists|done].
      * apply elem_of_cons in Hf as [->|Hf]; [congruence|].
        apply (proj1 IH); [by eexists|done].
    + intros Hall.
      destruct (proj2 IH) as [found Hc].
      { intros f Hf. apply Hall. by apply list_elem_of_further. }
      pose proof (Hall g (list_elem_of_here _ _)) as Hg.
      destruct (parsePluginInfo g) as [pluginInfo|err|]; [| by eexists | done].
      rewrite Hc. destruct (String.eqb _ _); by eexists.
Qed.

Lemma RemovePlugin_exact w filename dir r dir' :
  RemovePlugin w filename dir = (r, dir') ->
  (r = None -> filename ∈ dir /\ dir' = dir ∖ {[filename]}) /\
  (r <> None -> dir' = dir).
Proof.
  unfold RemovePlugin. case_bool_decide as Hin; simpl.
  - destruct (remove_fails w filename); intros [= <- <-]; split; try done.
  - intros [= <- <-]. split; done.
Qed.

Lemma evict_removed w filename existing dir r dir' g :
  evict w filename existing dir = (r, dir') ->
  g ∈ dir -> g ∉ dir' ->
  exists e, e ∈ existing /\ Filename e = g /\ g <> filename.
Proof.
  revert dir. induction existing as [|x rest IH]; intros dir; simpl.
  - intros [= <- <-] Hin Hout. done.
  - destruct (String.eqb (Filename x) filename) eqn:Hx; simpl.
    + intros Hev Hin Hout. destruct (IH _ Hev Hin Hout) as (e & He & H).
      exists e. split; [by apply list_elem_of_further|done].
    + apply String.eqb_neq in Hx.
      destruct (RemovePlugin w (Filename x) dir) as [[err|] dir1] eqn:Hrm.
      * intros [= <- <-] Hin Hout.
        apply RemovePlugin_exact in Hrm as [_ Hsame].
        rewrite Hsame in Hout by done. done.
      * intros Hev Hin Hout.
        apply RemovePlugin_exact in Hrm as [Hgone _].
        destruct (Hgone eq_refl) as [_ ->].
        destruct (decide (g = Filename x)) as [->|Hne].
        -- exists x. split; [apply list_elem_of_here|done].
        -- destruct (IH _ Hev) as (e & He & H); [set_solver|done|].
           exists e. split; [by apply list_elem_of_further|done].
Qed.

Lemma evict_nothing w filename existing dir :
  (forall e, e ∈ existing -> Filename e = filename) ->
  evict w filename existing dir = (None, dir).
Proof.
  induction existing as [|x rest IH]; intros Hall; simpl; [done|].
  rewrite (Hall x (list_elem_of_here _ _)), String.eqb_refl. simpl.
  apply IH. intros e He. apply Hall. by apply list_elem_of_further.
Qed.

(** X2.  Whatever the outcome, [InstallFromURL] removes only parseable
    [.vkp] files of the service of the new file name, never that file
    itself, and adds no file but the new one; so packages of other
    services and files whose names do not parse stay in place. *)
Theorem install_touches_own_service_only
    (url_Parse : string -> option URL) (vpksDir : string) (w : world)
    (pluginURL : string) (dir : gset string)
    (r : outcome install_error string) (dir' : gset string) :
  InstallFromURL url_Parse vpksDir w pluginURL dir = (r, dir') ->
  (forall g, g ∈ dir -> g ∉ dir' ->
     exists filename info j,
       extractFilename url_Parse pluginURL = Ok filename /\
       parsePluginInfo filename = Ok info /\
       g <> filename /\
       Strings.HasSuffix g ".vkp" = true /\
       parsePluginInfo g = Ok j /\ ServiceName j = ServiceName info) /\
  (forall g, g ∈ dir' -> g ∉ dir -> extractFilename url_Parse pluginURL = Ok g).
Proof.
  unfold InstallFromURL. intros Hcall.
  destruct (validateURL url_Parse pluginURL); [simplify_eq; by split|].
  destruct (extractFilename url_Parse pluginURL) as [filename|e|];
    [| simplify_eq; by split ..].
  destruct (validatePluginFilename filename); [simplify_eq; by split|].
  assert (forall d d' r0, fetch_into vpksDir w pluginURL filename d = (r0, d') ->
            d ⊆ d' /\ d' ⊆ {[filename]} ∪ d) as Hfetch.
  { intros d d' r0. unfold fetch_into, downloadFile.
    destruct (download w); intros [= <- <-]; set_solver. }
  destruct (parsePluginInfo filename) as [info|e|] eqn:Hp;
    [| | simplify_eq; by split].
  - destruct (findPluginsByService (ServiceName info) dir) as [existing|e|] eqn:Hfind;
      [| by apply findPluginsByService_no_Err in Hfind | simplify_eq; by split].
    assert (forall d1 ro, evict w filename existing dir = (ro, d1) ->
              forall g, g ∈ dir -> g ∉ d1 ->
                exists filename0 info0 j,
                  @Ok install_error string filename = Ok filename0 /\
                  parsePluginInfo filename0 = Ok info0 /\
                  g <> filename0 /\ Strings.HasSuffix g ".vkp" = true /\
                  parsePluginInfo g = Ok j /\ ServiceName j = ServiceName info0) as Hgone.
    { intros d1 ro Hev g Hin Hout.
      destruct (evict_removed _ _ _ _ _ _ _ Hev Hin Hout) as (e & He & Hname & Hne).
      unfold findPluginsByService in Hfind.
      destruct (ListInstalledPlugins dir) as [plugins| |] eqn:Hl; try discriminate.
      destruct (collect_sound _ _ _ _ Hfind He) as (f & Hf & Hpf & Hs).
      pose proof (parse_Filename _ _ Hpf) as Hfn. rewrite Hname in Hfn. subst f.
      apply (elem_of_listed _ _ _ Hl) in Hf as [_ Hsuf].
      by exists filename, info, e. }
    destruct (evict w filename existing dir) as [[e|] dir1] eqn:Hev.
    + injection Hcall as <- <-. split; [apply (Hgone _ _ eq_refl)|].
      intros g Hin Hout. apply evict_shrinks in Hev as [Hsub _]. set_solver.
    + destruct (Hfetch _ _ _ Hcall) as [Hsub1 Hsub2].
      apply evict_shrinks in Hev as Hev'. destruct Hev' as [Hsub _]. split.
      * intros g Hin Hout. apply (Hgone _ _ eq_refl); [done|]. set_solver.
      * intros g Hin Hout. f_equal.
        apply Hsub2 in Hin. clear -Hin Hout Hsub. set_solver.
  - destruct (Hfetch _ _ _ Hcall) as [Hsub1 Hsub2]. split.
    + intros g Hin Hout. set_solver.
    + intros g Hin Hout. f_equal. apply Hsub2 in Hin. clear -Hin Hout. set_solver.
Qed.

(** Installing [svc] 1.0.1 over a directory that also holds a package of
    [db] and a name that does not parse. *)
Lemma install_touches_own_service_only_witness :
  let dir : gset string :=
    {[ "svc_linux_amd64_v1.0.0.vkp"; "db_linux_amd64_v2.0.0.vkp"; "notes.vkp" ]} in
  let res := InstallFromURL simple_url "vpks" world_ok
               "http://host/svc_linux_amd64_v1.0.1.vkp" dir in
  (forall g, g ∈ dir -> g ∉ res.2 ->
     exists filename info j,
       extractFilename simple_url "http://host/svc_linux_amd64_v1.0.1.vkp" = Ok filename /\
       parsePluginInfo filename = Ok info /\
       g <> filename /\
       Strings.HasSuffix g ".vkp" = true /\
       parsePluginInfo g = Ok j /\ ServiceName j = ServiceName info) /\
  (forall g, g ∈ res.2 -> g ∉ dir ->
     extractFilename simple_url "http://host/svc_linux_amd64_v1.0.1.vkp" = Ok g).
Proof.
  cbv zeta.
  apply (install_touches_own_service_only simple_url "vpks" world_ok
           "http://host/svc_linux_amd64_v1.0.1.vkp" _ _ _ (surjective_pairing _)).
Defined.

Example install_keeps_other_services :
  elements (InstallFromURL simple_url "vpks" world_ok
              "http://host/svc_linux_amd64_v1.0.1.vkp"
              {[ "svc_linux_amd64_v1.0.0.vkp"; "db_linux_amd64_v2.0.0.vkp";
                 "notes.vkp" ]}).2
  ≡ₚ ["svc_linux_amd64_v1.0.1.vkp"; "db_linux_amd64_v2.0.0.vkp"; "notes.vkp"].
Proof. vm_compute. by do 3 (try apply Permutation_swap || apply perm_skip || reflexivity). Qed.

(** *** What success means, and what a refusal leaves *)

Lemma validateURL_None url_Parse pluginURL :
  validateURL url_Parse pluginURL = None ->
  exists u, url_Parse pluginURL = Some u /\
    (Scheme u = "http" \/ Scheme u = "https") /\ Host u <> "".
Proof.
  unfold validateURL. destruct (url_Parse pluginURL) as [u|]; [|discriminate].
  destruct (String.eqb (Scheme u) "http") eqn:Hhttp;
    destruct (String.eqb (Scheme u) "https") eqn:Hhttps; simpl;
    try discriminate;
    (destruct (String.eqb (Host u) "") eqn:Hhost; [discriminate|]);
    intros _; exists u; apply String.eqb_neq in Hhost;
    (split; [done|]); (split; [|done]).
  - left. by apply String.eqb_eq.
  - left. by apply String.eqb_eq.
  - right. by apply String.eqb_eq.
Qed.

Lemma validateURL_error url_Parse pluginURL e :
  validateURL url_Parse pluginURL = Some e -> e = InvalidURL.
Proof. unfold validateURL. repeat case_match; congruence. Qed.

Lemma extractFilename_error url_Parse pluginURL e :
  extractFilename url_Parse pluginURL = Err e -> e = NoFilename.
Proof. unfold extractFilename. repeat case_match; congruence. Qed.

Lemma extractFilename_no_Panic url_Parse pluginURL :
  extractFilename url_Parse pluginURL <> Panic.
Proof. unfold extractFilename. repeat case_match; congruence. Qed.

Lemma fetch_into_result vpksDir w pluginURL filename d r dir' :
  fetch_into vpksDir w pluginURL filename d = (r, dir') ->
  (r = Ok (Filepath.Join vpksDir filename) /\ download w = Fetched /\
   dir' = {[filename]} ∪ d) \/
  r = Err DownloadFailed.
Proof.
  unfold fetch_into, downloadFile, localPath.
  destruct (download w); intros [= <- <-]; auto.
Qed.

(** Past the three checks a call ends in a panic of the parser, a failed
    eviction, or the download. *)
Lemma InstallFromURL_checked url_Parse vpksDir w pluginURL dir r dir' filename :
  InstallFromURL url_Parse vpksDir w pluginURL dir = (r, dir') ->
  validateURL url_Parse pluginURL = None ->
  extractFilename url_Parse pluginURL = Ok filename ->
  validatePluginFilename filename = None ->
  (r = Ok (Filepath.Join vpksDir filename) /\ download w = Fetched /\
   filename ∈ dir') \/
  r = Err DownloadFailed \/ r = Err EvictFailed \/ r = Panic.
Proof.
  unfold InstallFromURL. intros Hcall Hv Hn Hs. rewrite Hv, Hn, Hs in Hcall.
  clear Hv Hn Hs.
  assert (forall d, fetch_into vpksDir w pluginURL filename d = (r, dir') ->
            (r = Ok (Filepath.Join vpksDir filename) /\ download w = Fetched /\
             filename ∈ dir') \/
            r = Err DownloadFailed \/ r = Err EvictFailed \/ r = Panic) as Hfetch.
  { intros d Hf. apply fetch_into_result in Hf as [(-> & Hd & ->) | ->]; [left|auto].
    repeat split; [done|set_solver]. }
  destruct (parsePluginInfo filename) as [info|e|];
    [| by eapply Hfetch | simplify_eq; auto].
  destruct (findPluginsByService (ServiceName info) dir) as [existing|e|];
    [| by eapply Hfetch | simplify_eq; auto].
  destruct (evict w filename existing dir) as [[e|] dir1] eqn:Hev;
    [|by eapply Hfetch].
  assert (e = EvictFailed) as ->.
  { clear Hcall. revert dir Hev. induction existing as [|x rest IH]; intros dir; simpl;
      [discriminate|].
    repeat case_match; intros; simplify_eq; eauto. }
  simplify_eq. auto.
Qed.

(** X3.  [InstallFromURL] succeeds only for a URL that parses, with scheme
    http or https and a host, whose path ends in a name with the suffix
    [.vkp], and only when the download went through; the file is then in
    the directory and the path returned is [vpksDir/name].  A call refused
    for its URL or its file name leaves the directory as it was. *)
Theorem install_success_and_refusal
    (url_Parse : string -> option URL) (vpksDir : string) (w : world)
    (pluginURL : string) (dir : gset string)
    (r : outcome install_error string) (dir' : gset string) :
  InstallFromURL url_Parse vpksDir w pluginURL dir = (r, dir') ->
  (forall path, r = Ok path ->
     exists u,
       url_Parse pluginURL = Some u /\
       (Scheme u = "http" \/ Scheme u = "https") /\ Host u <> "" /\
       Strings.HasSuffix (Filepath.Base (Path u)) ".vkp" = true /\
       download w = Fetched /\
       Filepath.Base (Path u) ∈ dir' /\
       path = Filepath.Join vpksDir (Filepath.Base (Path u))) /\
  (r = Err InvalidURL \/ r = Err NoFilename \/ r = Err BadFilename -> dir' = dir).
Proof.
  intros Hcall.
  destruct (validateURL url_Parse pluginURL) as [e|] eqn:Hv.
  { unfold InstallFromURL in Hcall. rewrite Hv in Hcall. by simplify_eq. }
  destruct (extractFilename url_Parse pluginURL) as [filename|e|] eqn:Hn.
  2,3: unfold InstallFromURL in Hcall; rewrite Hv, Hn in Hcall; by simplify_eq.
  destruct (validatePluginFilename filename) as [e|] eqn:Hs.
  { unfold InstallFromURL in Hcall. rewrite Hv, Hn, Hs in Hcall. by simplify_eq. }
  pose proof (InstallFromURL_checked _ _ _ _ _ _ _ _ Hcall Hv Hn Hs) as Hres.
  split.
  - intros path ->.
    destruct Hres as [([= ->] & Hd & Hin)|[|[|]]]; try discriminate.
    destruct (validateURL_None _ _ Hv) as (u & Hu & Hscheme & Hhost).
    exists u. unfold extractFilename in Hn. rewrite Hu in Hn.
    destruct (_ || _); [discriminate|]. injection Hn as <-.
    unfold validatePluginFilename in Hs.
    destruct (Strings.HasSuffix (Filepath.Base (Path u)) ".vkp"); [|discriminate].
    done.
  - intros Hr. destruct Hres as [(-> & _) | [-> | [-> | ->]]]; destruct Hr as [|[|]]; discriminate.
Qed.

(** The first install of the second scenario. *)
Lemma install_success_and_refusal_witness :
  (forall path,
     (InstallFromURL simple_url "vpks" world_ok
        "http://host/svc_linux_amd64_v1.0.0.vkp" ∅).1 = Ok path ->
     exists u,
       simple_url "http://host/svc_linux_amd64_v1.0.0.vkp" = Some u /\
       (Scheme u = "http" \/ Scheme u = "https") /\ Host u <> "" /\
       Strings.HasSuffix (Filepath.Base (Path u)) ".vkp" = true /\
       download world_ok = Fetched /\
       Filepath.Base (Path u) ∈ after_v100 /\
       path = Filepath.Join "vpks" (Filepath.Base (Path u))) /\
  ((InstallFromURL simple_url "vpks" world_ok
      "http://host/svc_linux_amd64_v1.0.0.vkp" ∅).1 = Err InvalidURL \/
   (InstallFromURL simple_url "vpks" world_ok
      "http://host/svc_linux_amd64_v1.0.0.vkp" ∅).1 = Err NoFilename \/
   (InstallFromURL simple_url "vpks" world_ok
      "http://host/svc_linux_amd64_v1.0.0.vkp" ∅).1 = Err BadFilename ->
   after_v100 = ∅).
Proof.
  exact (install_success_and_refusal simple_url "vpks" world_ok
           "http://host/svc_linux_amd64_v1.0.0.vkp" ∅ _ _ (surjective_pairing _)).
Defined.

(** Refused: a scheme that is not http(s), a path without a file name,
    a name without the suffix. *)
Example install_refusals :
  map (fun u => (InstallFromURL simple_url "vpks" world_ok u after_v100).1)
    ["ftp://host/svc_linux_amd64_v1.0.0.vkp"; "http://host/";
     "http://host/svc_linux_amd64_v1.0.0.tar"]
  = [Err InvalidURL; Err NoFilename; Err BadFilename].
Proof. by vm_compute. Qed.

(** *** Installing twice *)

Lemma findPluginsByService_Ok_iff serviceName dir :
  (exists found, findPluginsByService serviceName dir = Ok found) <->
  (forall f, f ∈ dir -> Strings.HasSuffix f ".vkp" = true -> parsePluginInfo f <> Panic).
Proof.
  unfold findPluginsByService.
  destruct (ListInstalledPlugins dir) as [plugins| |] eqn:Hl; try discriminate.
  rewrite collect_Ok_iff. split.
  - intros H f Hin Hsuf. apply H. by apply (elem_of_listed _ _ _ Hl).
  - intros H f Hf. apply (elem_of_listed _ _ _ Hl) in Hf as [? ?]. by apply H.
Qed.

(** X4.  Installing again from a URL whose install succeeded changes
    nothing when the download goes through: the same path is returned and
    the directory is the one the first call left. *)
Theorem reinstall_is_idempotent
    (url_Parse : string -> option URL) (vpksDir : string) (w w' : world)
    (pluginURL : string) (dir : gset string) (path : string) (dir1 : gset string) :
  InstallFromURL url_Parse vpksDir w pluginURL dir = (Ok path, dir1) ->
  download w' = Fetched ->
  InstallFromURL url_Parse vpksDir w' pluginURL dir1 = (Ok path, dir1).
Proof.
  intros Hcall Hd. unfold InstallFromURL in *.
  destruct (validateURL url_Parse pluginURL); [discriminate|].
  destruct (extractFilename url_Parse pluginURL) as [filename|e|]; try discriminate.
  destruct (validatePluginFilename filename); [discriminate|].
  assert (forall d, fetch_into vpksDir w pluginURL filename d = (Ok path, dir1) ->
            fetch_into vpksDir w' pluginURL filename dir1 = (Ok path, dir1) /\
            dir1 = {[filename]} ∪ d) as Hfetch.
  { intros d Hf. apply fetch_into_result in Hf as [([= ->] & _ & ->) | [=]].
    split; [|done]. unfold fetch_into, downloadFile. rewrite Hd.
    f_equal. set_solver. }
  destruct (parsePluginInfo filename) as [info|e|] eqn:Hp; [| |discriminate].
  2: by apply Hfetch in Hcall as [? _].
  destruct (findPluginsByService (ServiceName info) dir) as [existing|e|] eqn:Hfind;
    [| by apply findPluginsByService_no_Err in Hfind | discriminate].
  destruct (evict w filename existing dir) as [[e|] dir0] eqn:Hev; [discriminate|].
  pose proof (evicted_then_fetched _ _ _ _ _ _ _ _ _ _ Hp Hfind Hev Hcall) as Honly.
  destruct (Hfetch _ Hcall) as [Hagain Hdir1].
  destruct (proj2 (findPluginsByService_Ok_iff (ServiceName info) dir1)) as [found Hfound].
  { intros f Hin Hsuf. rewrite Hdir1 in Hin.
    apply elem_of_union in Hin as [Hin|Hin].
    - apply elem_of_singleton in Hin as ->. congruence.
    - apply evict_shrinks in Hev as [Hsub _].
      apply (proj1 (findPluginsByService_Ok_iff (ServiceName info) dir)); [by eexists| |done].
      by apply Hsub. }
  rewrite Hfound, evict_nothing; [done|].
  intros e He. unfold findPluginsByService in Hfound.
  destruct (ListInstalledPlugins dir1) as [plugins| |] eqn:Hl; try discriminate.
  destruct (collect_sound _ _ _ _ Hfound He) as (f & Hf & Hpf & Hs).
  apply (elem_of_listed _ _ _ Hl) in Hf as [Hin Hsuf].
  rewrite (parse_Filename _ _ Hpf). by eapply Honly.
Qed.

Lemma reinstall_is_idempotent_witness :
  InstallFromURL simple_url "vpks" world_ok
    "http://host/svc_linux_amd64_v1.0.1.vkp" after_v101
  = (Ok "vpks/svc_linux_amd64_v1.0.1.vkp", after_v101).
Proof.
  apply (reinstall_is_idempotent simple_url "vpks" world_ok world_ok
           "http://host/svc_linux_amd64_v1.0.1.vkp" after_v100).
  - rewrite (surjective_pairing (InstallFromURL _ _ _ _ _)). by f_equal.
  - reflexivity.
Defined.

End InstallerMore.
